(** * gpu_stress: fragmentation and compute stress utility

    A shallow embedding of [src/gpu_stress.py] and the properties of its
    fragmentation loop, its timed compute loop and its dispatcher.

    Conventions of the embedding.
    - Python [int] is [Z]; [//] on a positive divisor is [Z.div] (both floor).
    - Python [float] values that are compared ([random.random()], the elapsed
      time, [random_free_ratio], [target_sec]) are finite rationals, [Q];
      comparison of finite floats is exact, so [Q] comparison models it.
      Values that the source obtains by floating-point arithmetic
      ([target_mem], [target_sec]) are inputs of the loops that read them,
      so every statement holds for whatever that arithmetic yields.
    - The pseudo-random source, the device allocator and the wall clock are
      oracles: one [Draw] per iteration of the fragmentation loop, one clock
      reading per synchronisation of the compute loop.
    - Python exceptions are values of [result]. *)

From Stdlib Require Import String DecimalString ZArith Arith List Lia Bool QArith
  Permutation.
Import ListNotations.
Local Open Scope Z_scope.

(** ** Python runtime: exceptions and the list / random primitives used *)

Inductive PyExn : Type :=
| IndexError
| ValueError (msg : string)
| RuntimeError.

Inductive result (A : Type) : Type :=
| Ok (a : A)
| Raise (e : PyExn).
Arguments Ok {A} a.
Arguments Raise {A} e.

Definition bind {A B : Type} (m : result A) (k : A -> result B) : result B :=
  match m with
  | Ok a => k a
  | Raise e => Raise e
  end.

Notation "x <- m ;; k" := (bind m (fun x => k))
  (at level 61, m at next level, right associativity).
Notation "' p <- m ;; k" := (bind m (fun x => match x with p => k end))
  (at level 61, p pattern, m at next level, right associativity).

(** [random.choice(seq)]: the element at a drawn index; the draw
    [r] is reduced to the index range, [IndexError] on an empty sequence. *)
Definition random_choice (r : nat) (items : list Z) : result Z :=
  match items with
  | [] => Raise IndexError
  | _ :: _ => Ok (nth (r mod length items) items 0)
  end.

(** [random.randrange(n)]: an index below [n]; [ValueError] when [n = 0]. *)
Definition random_randrange (r : nat) (n : nat) : result nat :=
  match n with
  | O => Raise (ValueError "empty range for randrange()")
  | S _ => Ok (r mod n)%nat
  end.

(** [list.remove(x)]: drops the first element equal to [x]; [ValueError]
    when there is none. *)
Fixpoint list_remove (x : Z) (l : list Z) : result (list Z) :=
  match l with
  | [] => Raise (ValueError "list.remove(x): x not in list")
  | y :: l' =>
      if y =? x then Ok l'
      else l'' <- list_remove x l' ;; Ok (y :: l'')
  end.

(** [list.pop(idx)] for [idx >= 0]: the element at [idx] and the list
    without it; [IndexError] when out of range. *)
Fixpoint list_pop {A : Type} (idx : nat) (l : list A) : result (A * list A) :=
  match l, idx with
  | [], _ => Raise IndexError
  | x :: l', O => Ok (x, l')
  | x :: l', S i => ' (v, l'') <- list_pop i l' ;; Ok (v, x :: l'')
  end.

(** ** torch: element types and tensors *)

Inductive torch_dtype : Type :=
| torch_bool | torch_uint8 | torch_int8 | torch_int16 | torch_int32
| torch_int64 | torch_float16 | torch_bfloat16 | torch_float32
| torch_float64 | torch_complex64 | torch_complex128.

(** [torch.tensor([], dtype=dtype).element_size()] *)
Definition itemsize (dtype : torch_dtype) : Z :=
  match dtype with
  | torch_bool | torch_uint8 | torch_int8 => 1
  | torch_int16 | torch_float16 | torch_bfloat16 => 2
  | torch_int32 | torch_float32 => 4
  | torch_int64 | torch_float64 | torch_complex64 => 8
  | torch_complex128 => 16
  end.

Record Tensor : Type := mkTensor {
  element_size : Z;
  nelement : Z
}.

(** [tensor.element_size() * tensor.nelement()] *)
Definition tensor_bytes (t : Tensor) : Z := element_size t * nelement t.

(** [torch.empty(elements, dtype=dtype, device=device)]: the allocator's
    answer is the oracle bit [ok]; a refusal is the [RuntimeError] (CUDA
    out of memory) that [fragment] catches. *)
Definition torch_empty (ok : bool) (elements : Z) (dtype : torch_dtype)
  : result Tensor :=
  if ok then Ok (mkTensor (itemsize dtype) elements) else Raise RuntimeError.

Definition _bytes_to_elements (num_bytes : Z) (dtype : torch_dtype) : Z :=
  Z.max 1 (num_bytes / itemsize dtype).

(** ** FragmentConfig *)

Record FragmentConfig : Type := mkFragmentConfig {
  target_mem_ratio : Q;
  block_size_mib : list Z;
  min_block_mib : Z;
  dtype : torch_dtype;
  random_free_ratio : Q
}.

Definition default_block_size_mib : list Z :=
  [512; 256; 128; 64; 32; 16; 8; 4; 2; 1].

(** The dataclass defaults; [95 # 100] and [15 # 100] stand for the floats
    [0.95] and [0.15]. *)
Definition default_config : FragmentConfig :=
  mkFragmentConfig (95 # 100) default_block_size_mib 1 torch_float32 (15 # 100).

Definition block_size_bytes (config : FragmentConfig) : list Z :=
  map (fun size => size * 1024 * 1024) (block_size_mib config).

(** ** MemoryFragmenter *)

Record MemoryFragmenter : Type := mkMemoryFragmenter {
  device : Z;
  config : FragmentConfig;
  _tensors : list Tensor
}.

(** [MemoryFragmenter.__init__] *)
Definition MemoryFragmenter_init (device : Z) (config : FragmentConfig)
  : MemoryFragmenter :=
  mkMemoryFragmenter device config [].

(** What one iteration of the loop draws from its environment: the index of
    [random.choice], the allocator's answer to [torch.empty], the value of
    [random.random()] and the index of [random.randrange]. An iteration that
    does not reach a call ignores its field. *)
Record Draw : Type := mkDraw {
  pick : nat;
  alloc_ok : bool;
  roll : Q;
  victim_pick : nat
}.

(** The variables the loop of [fragment] reads and writes. *)
Record FragState : Type := mkFragState {
  allocated : Z;
  block_sizes : list Z;
  live : list Tensor          (* self._tensors *)
}.

(** What an iteration did; [Allocated] and [Freed] carry the value of the
    [allocated] counter right after its update. *)
Inductive Event : Type :=
| Removed (size : Z)
| AllocFailed (elements : Z)
| Allocated (t : Tensor) (counter : Z)
| Freed (idx : nat) (victim : Tensor) (counter : Z).

Definition min_block_bytes (config : FragmentConfig) : Z :=
  min_block_mib config * 1024 * 1024.

(** [[size // 2 for size in block_sizes if size // 2 >= min_block]] *)
Fixpoint halve_sizes (min_block : Z) (sizes : list Z) : list Z :=
  match sizes with
  | [] => []
  | size :: rest =>
      if min_block <=? size / 2
      then size / 2 :: halve_sizes min_block rest
      else halve_sizes min_block rest
  end.

(** [random.random() < self.config.random_free_ratio] *)
Definition free_fires (config : FragmentConfig) (d : Draw) : bool :=
  negb (Qle_bool (random_free_ratio config) (roll d)).

(** [while allocated < target_mem and block_sizes] *)
Definition loop_cond (target_mem : Z) (st : FragState) : bool :=
  (allocated st <? target_mem) &&
  match block_sizes st with [] => false | _ :: _ => true end.

(** Lines 92-95: the free that may follow a successful allocation. *)
Definition maybe_free (config : FragmentConfig) (d : Draw) (st : FragState)
  : result (FragState * list Event) :=
  if match live st with [] => false | _ :: _ => true end && free_fires config d
  then
    idx <- random_randrange (victim_pick d) (length (live st)) ;;
    ' (victim, rest) <- list_pop idx (live st) ;;
    let allocated' := allocated st - tensor_bytes victim in
    Ok (mkFragState allocated' (block_sizes st) rest,
        [Freed idx victim allocated'])
  else Ok (st, []).

(** The body of the loop, lines 75-95. *)
Definition loop_body (config : FragmentConfig) (d : Draw) (st : FragState)
  : result (FragState * list Event) :=
  let min_block := min_block_bytes config in
  block_bytes <- random_choice (pick d) (block_sizes st) ;;
  if block_bytes <? min_block then
    sizes <- list_remove block_bytes (block_sizes st) ;;
    Ok (mkFragState (allocated st) sizes (live st), [Removed block_bytes])
  else
    let elements := _bytes_to_elements block_bytes (dtype config) in
    match torch_empty (alloc_ok d) elements (dtype config) with
    | Raise RuntimeError =>
        Ok (mkFragState (allocated st)
              (halve_sizes min_block (block_sizes st)) (live st),
            [AllocFailed elements])
    | Raise e => Raise e
    | Ok tensor =>
        let allocated' := allocated st + tensor_bytes tensor in
        let st1 := mkFragState allocated' (block_sizes st) (live st ++ [tensor]) in
        ' (st2, freed) <- maybe_free config d st1 ;;
        Ok (st2, Allocated tensor allocated' :: freed)
    end.

(** The loop, run for at most one iteration per element of [draws]: it stops
    when its condition fails or when the draws are used up. *)
Fixpoint fragment_loop (config : FragmentConfig) (target_mem : Z)
    (draws : list Draw) (st : FragState) : result (FragState * list Event) :=
  match draws with
  | [] => Ok (st, [])
  | d :: rest =>
      if loop_cond target_mem st then
        ' (st1, ev) <- loop_body config d st ;;
        ' (st2, evs) <- fragment_loop config target_mem rest st1 ;;
        Ok (st2, ev ++ evs)
      else Ok (st, [])
  end.

(** The state in which the loop of [fragment] starts, lines 63-66. *)
Definition fragment_start (self : MemoryFragmenter) : FragState :=
  mkFragState 0 (block_size_bytes (config self)) (_tensors self).

(** What a call of [fragment] leaves behind: the fragmenter with its updated
    [_tensors], the copy [list(self._tensors)] that is returned, the value
    of [allocated] that is reported, and the events of the run. *)
Record Fragmented : Type := mkFragmented {
  self_after : MemoryFragmenter;
  blocks : list Tensor;
  reported : Z;
  history : list Event
}.

(** [MemoryFragmenter.fragment]: [target_mem] is the value of
    [int(total_mem * target_mem_ratio)]. The answer is [None] while the loop
    is still running after [draws]. *)
Definition fragment (self : MemoryFragmenter) (target_mem : Z) (draws : list Draw)
  : result (option Fragmented) :=
  ' (st, evs) <- fragment_loop (config self) target_mem draws (fragment_start self) ;;
  if loop_cond target_mem st then Ok None
  else Ok (Some (mkFragmented
                   (mkMemoryFragmenter (device self) (config self) (live st))
                   (live st) (allocated st) evs)).

(** The first [n] draws of an endless sequence of draws. *)
Definition prefix (rng : nat -> Draw) (n : nat) : list Draw :=
  map rng (seq 0 n).

(** Sum of the byte sizes of a collection of tensors. *)
Definition live_bytes (ts : list Tensor) : Z :=
  fold_right (fun t acc => tensor_bytes t + acc) 0 ts.

(** ** The compute loop of [busy_loop_mem_power_fragment] *)

(** Lines 140-154. [elapsed_at i] is the value of [time.time() - start] read
    at the synchronisation of iteration [i]; [target_sec] is the value of
    [hours * 3600]. The loop is run for at most [fuel] iterations; it answers
    with the iteration counter at the [break] and the iterations at which the
    elapsed time was read and compared, oldest first. *)
Fixpoint compute_loop (fuel : nat) (elapsed_at : Z -> Q) (target_sec : Q)
    (iteration : Z) (checked : list Z) : option (Z * list Z) :=
  match fuel with
  | O => None
  | S fuel' =>
      let iteration := iteration + 1 in
      if iteration mod 8 =? 0 then
        let elapsed := elapsed_at iteration in
        let checked := checked ++ [iteration] in
        if Qle_bool target_sec elapsed then Some (iteration, checked)
        else compute_loop fuel' elapsed_at target_sec iteration checked
      else compute_loop fuel' elapsed_at target_sec iteration checked
  end.

(** What the runtime supplies to one worker: the device's
    [prop.total_memory], the value of [int(total_mem * target_mem_ratio)],
    the draws of the fragmentation loop, the value of [hours * 3600], the
    clock readings of the compute loop, and the number of compute iterations
    the worker is observed for. *)
Record WorkerEnv : Type := mkWorkerEnv {
  env_total_memory : Z;
  env_target_mem : Z;
  env_draws : list Draw;
  env_target_sec : Q;
  env_elapsed_at : Z -> Q;
  env_fuel : nat
}.

(** What a finished stress run leaves behind. *)
Record Stressed : Type := mkStressed {
  fragmented : Fragmented;
  size_mat : Z;
  iterations : Z;
  checked_at : list Z
}.

(** [busy_loop_mem_power_fragment]: a fresh fragmenter fragments the memory,
    then the compute loop runs on the returned blocks. [None] while either
    loop is still running. [hours] reaches the compute loop as
    [env_target_sec], the value of [hours * 3600]. (The two dense
    [size_mat] x [size_mat] matrices and the kernels leave no trace in what
    is modelled.) *)
Definition busy_loop_mem_power_fragment (device : Z) (hours : Q)
    (config : FragmentConfig) (env : WorkerEnv) : result (option Stressed) :=
  let fragmenter := MemoryFragmenter_init device config in
  tensors <- fragment fragmenter (env_target_mem env) (env_draws env) ;;
  match tensors with
  | None => Ok None
  | Some fr =>
      let size_mat :=
        if 20 * 1024 ^ 3 <=? env_total_memory env then 6144 else 4096 in
      match compute_loop (env_fuel env) (env_elapsed_at env)
                         (env_target_sec env) 0 [] with
      | None => Ok None
      | Some (iteration, checked) =>
          Ok (Some (mkStressed fr size_mat iteration checked))
      end
  end.

(** ** Dispatcher: [run_on_gpu], [run_all_gpus], [main] *)

(** [run_on_gpu]: the device [cuda:device_id] is handed to the stress run. *)
Definition run_on_gpu (device_id : Z) (hours : Q) (config : FragmentConfig)
    (env : WorkerEnv) : result (option Stressed) :=
  busy_loop_mem_power_fragment device_id hours config env.

(** [range(n)] *)
Definition range (n : Z) : list Z := map Z.of_nat (seq 0 (Z.to_nat n)).

(** A [threading.Thread(target=run_on_gpu, args=..., daemon=...)] object:
    [ident] tells the objects apart (the order of creation), [args] are the
    arguments [(device_id, hours, config)] its target is called with. *)
Record Thread : Type := mkThread {
  ident : nat;
  args : Z * Q * FragmentConfig;
  daemon : bool
}.

(** What a started thread runs: its target on its arguments. *)
Definition thread_run (th : Thread) (env : WorkerEnv) : result (option Stressed) :=
  let '(device_id, hours, config) := args th in
  run_on_gpu device_id hours config env.

(** What the calling thread does to its workers. *)
Inductive Cmd : Type :=
| Start (th : Thread)
| Join (th : Thread).

(** [threads[device_id] = thread] on an insertion-ordered [dict]. *)
Fixpoint dict_set (threads : list (Z * Thread)) (key : Z) (th : Thread)
  : list (Z * Thread) :=
  match threads with
  | [] => [(key, th)]
  | (k, v) :: rest =>
      if k =? key then (k, th) :: rest else (k, v) :: dict_set rest key th
  end.

Definition dict_values (threads : list (Z * Thread)) : list Thread :=
  map snd threads.

(** The first loop of [run_all_gpus], lines 164-167: the dict and the
    commands issued so far are threaded through the iterations. *)
Fixpoint spawn_workers (ids : list Z) (hours : Q) (config : FragmentConfig)
    (threads : list (Z * Thread)) (issued : list Cmd)
  : list (Z * Thread) * list Cmd :=
  match ids with
  | [] => (threads, issued)
  | device_id :: rest =>
      let thread := mkThread (length issued) (device_id, hours, config) true in
      spawn_workers rest hours config
        (dict_set threads device_id thread) (issued ++ [Start thread])
  end.

(** [run_all_gpus]: the commands of the calling thread up to its return. *)
Definition run_all_gpus (hours : Q) (config : FragmentConfig) (device_count : Z)
  : list Cmd :=
  let '(threads, issued) :=
    spawn_workers (range device_count) hours config [] [] in
  issued ++ map Join (dict_values threads).

(** The [argparse.Namespace] that [parse_args] returns. *)
Record Namespace : Type := mkNamespace {
  args_hours : Q;
  args_device : option Z;
  args_target_mem_ratio : Q;
  args_free_ratio : Q;
  args_min_block_mib : Z
}.

(** The configuration [main] builds, lines 196-200; the other fields keep
    the dataclass defaults. *)
Definition main_config (args : Namespace) : FragmentConfig :=
  mkFragmentConfig (args_target_mem_ratio args) default_block_size_mib
    (args_min_block_mib args) torch_float32 (args_free_ratio args).

(** What [main] goes on to do after its checks: the call
    [run_on_gpu(device, hours, config)], or [run_all_gpus] with the commands
    it issues. *)
Inductive Work : Type :=
| SingleDevice (device_id : Z) (hours : Q) (config : FragmentConfig)
| AllDevices (cmds : list Cmd).

(** The message [f"Invalid GPU id {args.device}"]. *)
Definition invalid_gpu_id (device : Z) : string :=
  ("Invalid GPU id " ++ NilZero.string_of_int (Z.to_int device))%string.

(** [main] after [parse_args]; [device_count] is [torch.cuda.device_count()]. *)
Definition main (args : Namespace) (device_count : Z) : result Work :=
  let config := main_config args in
  match args_device args with
  | Some device =>
      if negb ((0 <=? device) && (device <? device_count))
      then Raise (ValueError (invalid_gpu_id device))
      else Ok (SingleDevice device (args_hours args) config)
  | None => Ok (AllDevices (run_all_gpus (args_hours args) config device_count))
  end.

(** The calls of [run_on_gpu] that get to run, each with its arguments: none
    when [main] raises. *)
Definition work_performed (r : result Work) : list (Z * Q * FragmentConfig) :=
  match r with
  | Raise _ => []
  | Ok (SingleDevice device_id hours config) => [(device_id, hours, config)]
  | Ok (AllDevices cmds) =>
      flat_map (fun c => match c with Start th => [args th] | Join _ => [] end) cmds
  end.

(** Execution of the calling thread together with its workers. [pending] is
    what the caller still has to do before it returns, [running] the workers
    (by [ident]) started and not yet finished, [finished] the workers whose
    target has returned. *)
Record Sys : Type := mkSys {
  pending : list Cmd;
  running : list nat;
  finished : list nat
}.

(** [thread.start()] makes the worker run; a running worker may finish at
    any moment; [thread.join()] returns only once the worker has finished. *)
Inductive sys_step : Sys -> Sys -> Prop :=
| step_start th k R F :
    sys_step (mkSys (Start th :: k) R F) (mkSys k (ident th :: R) F)
| step_finish i k R F :
    In i R ->
    sys_step (mkSys k R F)
             (mkSys k (filter (fun j => negb (Nat.eqb j i)) R) (i :: F))
| step_join th k R F :
    In (ident th) F ->
    sys_step (mkSys (Join th :: k) R F) (mkSys k R F).

Inductive sys_steps : Sys -> Sys -> Prop :=
| steps_refl s : sys_steps s s
| steps_cons s1 s2 s3 : sys_step s1 s2 -> sys_steps s2 s3 -> sys_steps s1 s3.

(** The worker for device [i]: the [i]-th thread created, running
    [run_on_gpu(i, hours, config)]. *)
Definition worker (hours : Q) (config : FragmentConfig) (i : nat) : Thread :=
  mkThread i (Z.of_nat i, hours, config) true.

(** The workers a list of commands starts, and those it joins. *)
Definition started_ids (cmds : list Cmd) : list nat :=
  flat_map (fun c => match c with Start th => [ident th] | Join _ => [] end) cmds.

Definition joined_ids (cmds : list Cmd) : list nat :=
  flat_map (fun c => match c with Join th => [ident th] | Start _ => [] end) cmds.

(** ** Auxiliary notions for the statements *)

(** The tensor that a successful [torch.empty] returns for a candidate. *)
Definition new_tensor (config : FragmentConfig) (block_bytes : Z) : Tensor :=
  mkTensor (itemsize (dtype config))
           (_bytes_to_elements block_bytes (dtype config)).

(** The four ways an iteration can go. *)
Inductive body_step (c : FragmentConfig) (d : Draw) (st : FragState)
  : FragState -> list Event -> Prop :=
| body_remove b sizes :
    random_choice (pick d) (block_sizes st) = Ok b ->
    b < min_block_bytes c ->
    list_remove b (block_sizes st) = Ok sizes ->
    body_step c d st (mkFragState (allocated st) sizes (live st)) [Removed b]
| body_fail b :
    random_choice (pick d) (block_sizes st) = Ok b ->
    min_block_bytes c <= b ->
    alloc_ok d = false ->
    body_step c d st
      (mkFragState (allocated st)
         (halve_sizes (min_block_bytes c) (block_sizes st)) (live st))
      [AllocFailed (_bytes_to_elements b (dtype c))]
| body_alloc b :
    random_choice (pick d) (block_sizes st) = Ok b ->
    min_block_bytes c <= b ->
    alloc_ok d = true ->
    free_fires c d = false ->
    body_step c d st
      (mkFragState (allocated st + tensor_bytes (new_tensor c b))
         (block_sizes st) (live st ++ [new_tensor c b]))
      [Allocated (new_tensor c b) (allocated st + tensor_bytes (new_tensor c b))]
| body_alloc_free b idx victim rest :
    random_choice (pick d) (block_sizes st) = Ok b ->
    min_block_bytes c <= b ->
    alloc_ok d = true ->
    free_fires c d = true ->
    idx = (victim_pick d mod length (live st ++ [new_tensor c b]))%nat ->
    list_pop idx (live st ++ [new_tensor c b]) = Ok (victim, rest) ->
    body_step c d st
      (mkFragState
         (allocated st + tensor_bytes (new_tensor c b) - tensor_bytes victim)
         (block_sizes st) rest)
      [Allocated (new_tensor c b) (allocated st + tensor_bytes (new_tensor c b));
       Freed idx victim
         (allocated st + tensor_bytes (new_tensor c b) - tensor_bytes victim)].

(** Event counters. *)
Definition is_alloc (e : Event) : bool :=
  match e with Allocated _ _ => true | _ => false end.

Definition is_free (e : Event) : bool :=
  match e with Freed _ _ _ => true | _ => false end.

Definition is_attempt (e : Event) : bool :=
  match e with Allocated _ _ | AllocFailed _ => true | _ => false end.

Definition count_allocs (evs : list Event) : nat := length (filter is_alloc evs).
Definition count_frees (evs : list Event) : nat := length (filter is_free evs).

(** The sizes the loop removed from its candidates, in order. *)
Definition removed_sizes (evs : list Event) : list Z :=
  flat_map (fun e => match e with Removed s => [s] | _ => [] end) evs.

(** Every value the [allocated] counter was assigned during the run. *)
Definition counter_values (evs : list Event) : list Z :=
  flat_map (fun e => match e with
                     | Allocated _ a | Freed _ _ a => [a]
                     | _ => []
                     end) evs.

(** [allocated] equals the bytes of the live blocks. *)
Definition consistent (st : FragState) : Prop :=
  allocated st = live_bytes (live st).

(** Every live block occupies at least one byte. *)
Definition positive_blocks (st : FragState) : Prop :=
  Forall (fun t => 1 <= tensor_bytes t) (live st).

(** An upper bound on what the device has left: the live blocks occupy it,
    and whatever else is resident can only lower it. *)
Definition remaining_capacity (total_mem : Z) (st : FragState) : Z :=
  total_mem - live_bytes (live st).

(** The allocator's answer in this iteration is sound: if the iteration
    reaches [torch.empty] and the allocator grants the request, the request
    was within the remaining capacity. *)
Definition fits (c : FragmentConfig) (total_mem : Z) (d : Draw) (st : FragState)
  : bool :=
  match random_choice (pick d) (block_sizes st) with
  | Ok b =>
      if b <? min_block_bytes c then true
      else if alloc_ok d
           then tensor_bytes (new_tensor c b) <=? remaining_capacity total_mem st
           else true
  | Raise _ => true
  end.

(** The allocator fails every request above the remaining capacity, at every
    iteration of the run on [draws]. *)
Fixpoint allocator_respects_capacity (c : FragmentConfig) (total_mem target_mem : Z)
    (draws : list Draw) (st : FragState) : bool :=
  match draws with
  | [] => true
  | d :: rest =>
      if loop_cond target_mem st then
        fits c total_mem d st &&
        match loop_body c d st with
        | Ok (st1, _) =>
            allocator_respects_capacity c total_mem target_mem rest st1
        | Raise _ => true
        end
      else true
  end.

(** A run on a device of 1000 MiB with the default configuration: the
    allocator grants 512 MiB, refuses the next request (which no longer
    fits), then grants 256 MiB and 128 MiB, the last followed by a free. *)
Definition sample_total_mem : Z := 1000 * 1024 * 1024.
Definition sample_target_mem : Z := 950 * 1024 * 1024.
Definition sample_draws : list Draw :=
  [mkDraw 0 true (1 # 2) 0; mkDraw 0 false (1 # 2) 0;
   mkDraw 0 true (1 # 2) 0; mkDraw 1 true (1 # 10) 1].

(** A configuration as [main] builds it for [--min-block-mib 1024]: the
    minimum is above every candidate. *)
Definition config_min_1024 : FragmentConfig :=
  mkFragmentConfig (95 # 100) default_block_size_mib 1024 torch_float32 (15 # 100).

(** The loop of [fragment] has come to its end within the first [n] draws of
    [rng], in state [st]. *)
Definition loop_exits (c : FragmentConfig) (target_mem : Z) (rng : nat -> Draw)
    (st0 : FragState) (n : nat) (st : FragState) : Prop :=
  exists evs,
    fragment_loop c target_mem (prefix rng n) st0 = Ok (st, evs) /\
    loop_cond target_mem st = false.

(** [--min-block-mib 0] *)
Definition config_min_0 : FragmentConfig :=
  mkFragmentConfig (95 # 100) default_block_size_mib 0 torch_float32 (15 # 100).

(** Draws in which every allocation succeeds and [random.random()] is 0.5. *)
Definition rng_always_granted : nat -> Draw := fun _ => mkDraw 0 true (1 # 2) 0.

(** Draws in which every allocation succeeds and [random.random()] is 0.1,
    below the default [random_free_ratio]: every allocation is followed by a
    free. *)
Definition rng_always_freed : nat -> Draw := fun _ => mkDraw 0 true (1 # 10) 0.

(** Draws in which every allocation is refused. *)
Definition rng_always_refused : nat -> Draw := fun _ => mkDraw 0 false (1 # 2) 0.

(** A variant of the loop that decreases in every iteration without a free
    when the minimum is positive: the bytes still missing to the target, plus
    one more than its size for every candidate. *)
Definition size_weight (sizes : list Z) : nat :=
  fold_right (fun s acc => S (Z.to_nat s) + acc)%nat 0%nat sizes.

Definition variant (target_mem : Z) (st : FragState) : nat :=
  (Z.to_nat (target_mem - allocated st) + size_weight (block_sizes st))%nat.

(** The data-model invariant of a configuration: the candidate sizes are
    non-increasing, and the minimum is at most the largest candidate. *)
Fixpoint non_increasing (sizes : list Z) : bool :=
  match sizes with
  | [] => true
  | a :: rest =>
      match rest with
      | [] => true
      | b :: _ => (b <=? a) && non_increasing rest
      end
  end.

Fixpoint largest (sizes : list Z) : option Z :=
  match sizes with
  | [] => None
  | a :: rest =>
      match largest rest with
      | None => Some a
      | Some m => Some (Z.max a m)
      end
  end.

Definition min_within_candidates (c : FragmentConfig) : bool :=
  match largest (block_size_mib c) with
  | Some m => min_block_mib c <=? m
  | None => false
  end.

Definition config_invariant (c : FragmentConfig) : bool :=
  non_increasing (block_size_mib c) && min_within_candidates c.

(** [--hours 1 --min-block-mib 1024] *)
Definition args_min_1024 : Namespace :=
  mkNamespace 1 None (95 # 100) (15 # 100) 1024.

(** [--hours 1 --device 2] *)
Definition args_device_2 : Namespace :=
  mkNamespace 1 (Some 2) (95 # 100) (15 # 100) 1.

(** What holds of every state the caller and its workers can reach while
    the caller executes [cmds]. *)
Definition sys_inv (cmds : list Cmd) (s : Sys) : Prop :=
  exists done,
    cmds = done ++ pending s /\
    (forall i, In i (running s) -> In i (started_ids done)) /\
    (forall i, In i (finished s) -> In i (started_ids done)) /\
    (forall i, In i (joined_ids done) -> In i (finished s)) /\
    NoDup (running s) /\ NoDup (finished s) /\
    (forall i, In i (running s) -> ~ In i (finished s)).


(** ** Further notions, for the properties beyond the listed ones *)

(** The failed allocation attempts of a run. *)
Definition is_fail (e : Event) : bool :=
  match e with AllocFailed _ => true | _ => false end.

Definition count_fails (evs : list Event) : nat := length (filter is_fail evs).

(** The largest number of bytes a single allocation of a run can take: the
    largest candidate, or one element when every candidate is smaller. *)
Definition largest_request (c : FragmentConfig) : Z :=
  fold_right Z.max (itemsize (dtype c)) (block_size_bytes c).

(** How many failed allocations a candidate of [size] bytes can be part of
    before the halving drops it: none when it is below the minimum already. *)
Definition halvings (min_block size : Z) : nat :=
  if size <? min_block then O
  else S (Z.to_nat (Z.log2 (size / min_block))).

(** The most failed allocations the candidates allow. *)
Definition fail_budget (min_block : Z) (sizes : list Z) : nat :=
  list_max (map (halvings min_block) sizes).

(** The device ids of the calls of [run_on_gpu]. *)
Definition call_device (call : Z * Q * FragmentConfig) : Z := fst (fst call).

(** The blocks of a run are tensors of the configured element type, each
    allocated for a candidate that was not below the minimum. *)
Definition configured_blocks (c : FragmentConfig) (st : FragState) : Prop :=
  Forall (fun t => exists b, min_block_bytes c <= b /\ t = new_tensor c b)
         (live st).

(** No candidate is above [cap]. *)
Definition candidates_within (cap : Z) (st : FragState) : Prop :=
  Forall (fun b => b <= cap) (block_sizes st).

(** A list is descending when no element is above an earlier one. *)
Fixpoint descending (l : list Z) : Prop :=
  match l with
  | [] => True
  | a :: rest => (forall x, In x rest -> x <= a) /\ descending rest
  end.

(** Every candidate is at or above the minimum, or is one of [sizes]. *)
Definition kept_or_from (min_block : Z) (sizes : list Z) (st : FragState) : Prop :=
  Forall (fun b => min_block <= b \/ In b sizes) (block_sizes st).

(** * Properties *)

(** ** The Python primitives *)

Lemma bind_Ok {A B : Type} (m : result A) (k : A -> result B) (b : B) :
  bind m k = Ok b -> exists a, m = Ok a /\ k a = Ok b.
Proof.
  destruct m as [a | e]; simpl; intros H; [eauto | discriminate].
Qed.

Ltac bind_inv H :=
  let a := fresh "a" in
  let Ha := fresh "Ha" in
  apply bind_Ok in H; destruct H as (a & Ha & H).

Lemma random_choice_In (r : nat) (items : list Z) (x : Z) :
  random_choice r items = Ok x -> In x items.
Proof.
  destruct items as [| y items]; intros H; [discriminate |].
  set (l := y :: items) in *.
  assert (Hx : x = nth (r mod length l) l 0)
    by (unfold random_choice in H; subst l; congruence).
  rewrite Hx. apply nth_In. apply Nat.mod_upper_bound.
  subst l. discriminate.
Qed.

Lemma random_choice_Ok (r : nat) (items : list Z) :
  items <> [] -> exists x, random_choice r items = Ok x.
Proof.
  destruct items; [congruence | unfold random_choice; eauto].
Qed.

Lemma list_remove_In (x : Z) (l : list Z) :
  In x l -> exists l', list_remove x l = Ok l'.
Proof.
  induction l as [| y l IH]; simpl; [tauto |].
  intros [-> | Hin].
  - rewrite Z.eqb_refl. eauto.
  - destruct (y =? x); [eauto |].
    destruct (IH Hin) as [l' ->]. simpl. eauto.
Qed.

Lemma list_remove_Permutation (x : Z) (l l' : list Z) :
  list_remove x l = Ok l' -> Permutation l (x :: l').
Proof.
  revert l'. induction l as [| y l IH]; simpl; intros l' H; [discriminate |].
  destruct (Z.eqb_spec y x) as [-> | Hne].
  - injection H as <-. reflexivity.
  - bind_inv H. injection H as <-.
    rewrite (IH _ Ha). apply perm_swap.
Qed.

Lemma list_pop_Ok {A : Type} (idx : nat) (l : list A) :
  (idx < length l)%nat -> exists v rest, list_pop idx l = Ok (v, rest).
Proof.
  revert idx. induction l as [| x l IH]; simpl; intros idx Hlt; [lia |].
  destruct idx as [| i]; [simpl; eauto |].
  destruct (IH i) as (v & rest & Hpop); [lia |].
  simpl. rewrite Hpop. simpl. eauto.
Qed.

Lemma list_pop_spec {A : Type} (idx : nat) (l rest : list A) (v : A) :
  list_pop idx l = Ok (v, rest) ->
  nth_error l idx = Some v /\
  rest = firstn idx l ++ skipn (S idx) l /\
  length l = S (length rest).
Proof.
  revert idx rest. induction l as [| x l IH]; intros idx rest H.
  - destruct idx; discriminate.
  - destruct idx as [| i]; simpl in H.
    + injection H as <- <-. auto.
    + bind_inv H. destruct a as [v' l''].
      injection H as <- <-.
      destruct (IH _ _ Ha) as (Hn & Hr & Hl).
      simpl. rewrite Hl. subst l''. auto.
Qed.

Lemma live_bytes_app (ts us : list Tensor) :
  live_bytes (ts ++ us) = live_bytes ts + live_bytes us.
Proof.
  induction ts as [| t ts IH]; simpl; [reflexivity | rewrite IH; lia].
Qed.

Lemma list_pop_live_bytes (idx : nat) (ts rest : list Tensor) (v : Tensor) :
  list_pop idx ts = Ok (v, rest) ->
  live_bytes ts = tensor_bytes v + live_bytes rest.
Proof.
  revert idx rest. induction ts as [| t ts IH]; intros idx rest H.
  - destruct idx; discriminate.
  - destruct idx as [| i]; simpl in H.
    + injection H as <- <-. reflexivity.
    + bind_inv H. destruct a as [v' l''].
      injection H as <- <-. simpl. rewrite (IH _ _ Ha). lia.
Qed.

Lemma itemsize_pos (dt : torch_dtype) : 1 <= itemsize dt.
Proof. destruct dt; simpl; lia. Qed.

Lemma _bytes_to_elements_pos (n : Z) (dt : torch_dtype) :
  1 <= _bytes_to_elements n dt.
Proof. unfold _bytes_to_elements. lia. Qed.

(** ** The iteration of the fragmentation loop as a step relation *)

Lemma new_tensor_bytes_pos (c : FragmentConfig) (b : Z) :
  1 <= tensor_bytes (new_tensor c b).
Proof.
  unfold tensor_bytes, new_tensor; simpl.
  pose proof (itemsize_pos (dtype c)).
  pose proof (_bytes_to_elements_pos b (dtype c)). nia.
Qed.

Lemma loop_body_inv (c : FragmentConfig) (d : Draw) (st st' : FragState)
    (ev : list Event) :
  loop_body c d st = Ok (st', ev) -> body_step c d st st' ev.
Proof.
  unfold loop_body. intros H. bind_inv H. rename a into b.
  destruct (Z.ltb_spec b (min_block_bytes c)) as [Hlt | Hge].
  - bind_inv H. injection H as <- <-. now apply body_remove.
  - unfold torch_empty in H. destruct (alloc_ok d) eqn:Hok.
    + bind_inv H. destruct a as [st2 freed]. injection H as <- <-.
      unfold maybe_free in Ha0. cbn [live allocated block_sizes] in Ha0.
      destruct (live st ++ [_]) as [| t0 ts] eqn:Hts in Ha0 at 1.
      { destruct (live st); discriminate. }
      cbn [andb] in Ha0. destruct (free_fires c d) eqn:Hf.
      * bind_inv Ha0. rename a into idx. bind_inv Ha0. destruct a as [victim rest].
        injection Ha0 as <- <-.
        eapply body_alloc_free; eauto.
        unfold random_randrange in Ha1.
        fold (new_tensor c b) in Ha1.
        destruct (length (live st ++ [new_tensor c b])) eqn:Hlen;
          [discriminate | injection Ha1 as <-; reflexivity].
      * injection Ha0 as <- <-. now apply body_alloc.
    + injection H as <- <-. now apply body_fail.
Qed.

Lemma loop_body_Ok (c : FragmentConfig) (d : Draw) (st : FragState) :
  block_sizes st <> [] -> exists st' ev, loop_body c d st = Ok (st', ev).
Proof.
  intros Hne. unfold loop_body.
  destruct (random_choice_Ok (pick d) _ Hne) as [b Hb]. rewrite Hb. simpl.
  destruct (b <? min_block_bytes c).
  - destruct (list_remove_In b (block_sizes st)) as [l' ->];
      [eapply random_choice_In; eauto |]. simpl. eauto.
  - unfold torch_empty. destruct (alloc_ok d); [| eauto].
    unfold maybe_free. cbn [live allocated block_sizes].
    set (ts := live st ++ _).
    assert (Hlen : (0 < length ts)%nat)
      by (unfold ts; rewrite length_app; simpl; lia).
    destruct ts as [| t0 ts'] eqn:Hts; [simpl in Hlen; lia |].
    cbn [andb]. destruct (free_fires c d); [| simpl; eauto].
    rewrite <- Hts in *. unfold random_randrange.
    destruct (length ts) eqn:Hl; [lia |]. rewrite <- Hl. simpl.
    destruct (list_pop_Ok (victim_pick d mod length ts) ts) as (v & rest & ->).
    { apply Nat.mod_upper_bound. lia. }
    simpl. eauto.
Qed.

(** ** The loop *)

Section Loop.

Variable c : FragmentConfig.
Variable target_mem : Z.

Lemma loop_cond_true (st : FragState) :
  loop_cond target_mem st = true <->
  allocated st < target_mem /\ block_sizes st <> [].
Proof.
  unfold loop_cond. rewrite andb_true_iff, Z.ltb_lt.
  destruct (block_sizes st); intuition congruence.
Qed.

(** The exit condition in the spec's words. *)
Lemma loop_cond_false (st : FragState) :
  loop_cond target_mem st = false <->
  target_mem <= allocated st \/ block_sizes st = [].
Proof.
  unfold loop_cond. rewrite andb_false_iff, Z.ltb_ge.
  destruct (block_sizes st); intuition congruence.
Qed.

Lemma fragment_loop_stop (draws : list Draw) (st : FragState) :
  loop_cond target_mem st = false ->
  fragment_loop c target_mem draws st = Ok (st, []).
Proof.
  intros H. destruct draws; simpl; [| rewrite H]; reflexivity.
Qed.

Lemma fragment_loop_step (d : Draw) (rest : list Draw)
    (st st1 st2 : FragState) (ev evs : list Event) :
  loop_cond target_mem st = true ->
  loop_body c d st = Ok (st1, ev) ->
  fragment_loop c target_mem rest st1 = Ok (st2, evs) ->
  fragment_loop c target_mem (d :: rest) st = Ok (st2, ev ++ evs).
Proof.
  intros Hc Hb Hl. simpl. rewrite Hc, Hb. simpl. rewrite Hl. reflexivity.
Qed.

Lemma fragment_loop_cons_inv (d : Draw) (rest : list Draw)
    (st st2 : FragState) (evs : list Event) :
  fragment_loop c target_mem (d :: rest) st = Ok (st2, evs) ->
  (loop_cond target_mem st = false /\ st2 = st /\ evs = []) \/
  (loop_cond target_mem st = true /\
   exists st1 ev evs',
     loop_body c d st = Ok (st1, ev) /\
     body_step c d st st1 ev /\
     fragment_loop c target_mem rest st1 = Ok (st2, evs') /\
     evs = ev ++ evs').
Proof.
  simpl. destruct (loop_cond target_mem st) eqn:Hc; intros H.
  - right. split; [reflexivity |].
    bind_inv H. destruct a as [st1 ev].
    bind_inv H. destruct a as [st2' evs'].
    injection H as <- <-.
    exists st1, ev, evs'. auto using loop_body_inv.
  - left. injection H as <- <-. auto.
Qed.

(** The loop never raises: every primitive is called within its domain. *)
Lemma fragment_loop_Ok (draws : list Draw) (st : FragState) :
  exists st' evs, fragment_loop c target_mem draws st = Ok (st', evs).
Proof.
  revert st. induction draws as [| d rest IH]; intros st; simpl; [eauto |].
  destruct (loop_cond target_mem st) eqn:Hc; [| eauto].
  apply loop_cond_true in Hc. destruct Hc as [_ Hne].
  destruct (loop_body_Ok c d st Hne) as (st1 & ev & ->). simpl.
  destruct (IH st1) as (st2 & evs & ->). simpl. eauto.
Qed.

(** Running on [l1 ++ l2] is running on [l1], then on [l2] from there. *)
Lemma fragment_loop_app (l1 l2 : list Draw)
    (st st1 st2 : FragState) (e1 e2 : list Event) :
  fragment_loop c target_mem l1 st = Ok (st1, e1) ->
  fragment_loop c target_mem l2 st1 = Ok (st2, e2) ->
  fragment_loop c target_mem (l1 ++ l2) st = Ok (st2, e1 ++ e2).
Proof.
  revert st e1. induction l1 as [| d l1 IH]; intros st e1 H1 H2.
  - simpl in H1. injection H1 as <- <-. exact H2.
  - rewrite <- app_comm_cons. simpl in *.
    destruct (loop_cond target_mem st) eqn:Hc.
    + bind_inv H1. destruct a as [sa ev]. rewrite Ha. simpl.
      bind_inv H1. destruct a as [sb evs]. injection H1 as <- <-.
      rewrite (IH _ _ Ha0 H2). simpl. now rewrite app_assoc.
    + injection H1 as <- <-.
      rewrite (fragment_loop_stop l2 st Hc) in H2.
      injection H2 as <- <-. reflexivity.
Qed.

(** An invariant of the iterations on draws that satisfy [Q] is an invariant
    of the loop on such draws. *)
Lemma fragment_loop_invariant_on (Q : Draw -> Prop) (P : FragState -> Prop) :
  (forall d st st' ev,
      Q d -> P st -> loop_cond target_mem st = true ->
      body_step c d st st' ev -> P st') ->
  forall draws st st' evs,
    Forall Q draws -> P st ->
    fragment_loop c target_mem draws st = Ok (st', evs) -> P st'.
Proof.
  intros Hstep draws.
  induction draws as [| d rest IH]; intros st st' evs HQ HP H.
  - simpl in H. now injection H as <- <-.
  - inversion HQ as [| ? ? Hd Hrest]; subst.
    apply fragment_loop_cons_inv in H.
    destruct H as [(_ & -> & _) | (Hc & st1 & ev & evs' & _ & Hb & Hl & _)];
      [assumption |].
    eapply IH; [exact Hrest | | exact Hl]. eapply Hstep; eauto.
Qed.

(** An invariant of the iteration is an invariant of the loop. *)
Lemma fragment_loop_invariant (P : FragState -> Prop) :
  (forall d st st' ev,
      P st -> loop_cond target_mem st = true ->
      body_step c d st st' ev -> P st') ->
  forall draws st st' evs,
    P st -> fragment_loop c target_mem draws st = Ok (st', evs) -> P st'.
Proof.
  intros Hstep draws st st' evs.
  apply (fragment_loop_invariant_on (fun _ => True)); [eauto |].
  clear. induction draws; constructor; auto.
Qed.

End Loop.

(** An iteration moves the counter and the bytes of the live blocks by the
    same amount. *)
Lemma body_step_bytes_offset (c : FragmentConfig) (d : Draw)
    (st st' : FragState) (ev : list Event) :
  body_step c d st st' ev ->
  live_bytes (live st') - allocated st' = live_bytes (live st) - allocated st.
Proof.
  intros Hb.
  destruct Hb as [b sizes _ _ _ | b _ _ _ | b _ _ _ _
                 | b idx victim rest _ _ _ _ _ Hpop]; simpl; auto.
  - rewrite live_bytes_app. simpl. lia.
  - apply list_pop_live_bytes in Hpop.
    rewrite live_bytes_app in Hpop. simpl in Hpop. lia.
Qed.

Lemma body_step_consistent (c : FragmentConfig) (d : Draw)
    (st st' : FragState) (ev : list Event) :
  consistent st -> body_step c d st st' ev -> consistent st'.
Proof.
  unfold consistent. intros Hc Hb.
  apply body_step_bytes_offset in Hb. lia.
Qed.

(** What [fragment] answers, read off the loop. *)
Lemma fragment_of_loop (self : MemoryFragmenter) (target_mem : Z)
    (draws : list Draw) (st : FragState) (evs : list Event) :
  fragment_loop (config self) target_mem draws (fragment_start self) = Ok (st, evs) ->
  fragment self target_mem draws =
  if loop_cond target_mem st then Ok None
  else Ok (Some (mkFragmented
                   (mkMemoryFragmenter (device self) (config self) (live st))
                   (live st) (allocated st) evs)).
Proof.
  intros H. unfold fragment. rewrite H. reflexivity.
Qed.

Lemma list_pop_Forall {A : Type} (P : A -> Prop) (idx : nat)
    (l rest : list A) (v : A) :
  list_pop idx l = Ok (v, rest) -> Forall P l -> P v /\ Forall P rest.
Proof.
  revert idx rest. induction l as [| x l IH]; intros idx rest H HF.
  - destruct idx; discriminate.
  - inversion HF as [| ? ? Hx Hl]; subst.
    destruct idx as [| i]; simpl in H.
    + injection H as <- <-. auto.
    + bind_inv H. destruct a as [v' l''].
      injection H as <- <-.
      destruct (IH _ _ Ha Hl). auto.
Qed.

Lemma body_step_positive_blocks (c : FragmentConfig) (d : Draw)
    (st st' : FragState) (ev : list Event) :
  positive_blocks st -> body_step c d st st' ev -> positive_blocks st'.
Proof.
  unfold positive_blocks. intros Hp Hb.
  assert (Hnew : forall b, Forall (fun t => 1 <= tensor_bytes t)
                             (live st ++ [new_tensor c b])).
  { intros b. apply Forall_app. split; [assumption |].
    constructor; [apply new_tensor_bytes_pos | constructor]. }
  destruct Hb as [b sizes _ _ _ | b _ _ _ | b _ _ _ _
                 | b idx victim rest _ _ _ _ _ Hpop]; simpl; auto.
  eapply list_pop_Forall in Hpop; [| apply Hnew]. tauto.
Qed.

Create HintDb frag discriminated.
#[local] Hint Resolve body_step_consistent body_step_positive_blocks
  new_tensor_bytes_pos : frag.

(** ** C10: the counter is the byte total of the live blocks *)

(** Whatever [self._tensors] holds when the loop starts, the counter and the
    bytes of the live blocks keep their distance: with a fragmenter that
    already holds blocks the counter lags behind by their bytes. *)
Lemma fragment_loop_bytes_offset (c : FragmentConfig) (target_mem : Z)
    (draws : list Draw) (st st' : FragState) (evs : list Event) :
  fragment_loop c target_mem draws st = Ok (st', evs) ->
  live_bytes (live st') - allocated st' = live_bytes (live st) - allocated st.
Proof.
  intros H.
  apply (fragment_loop_invariant c target_mem
           (fun s => live_bytes (live s) - allocated s
                     = live_bytes (live st) - allocated st)
           ) with (draws := draws) (st := st) (evs := evs); auto.
  intros d s s' ev Hs _ Hb. apply body_step_bytes_offset in Hb. lia.
Qed.

Lemma fragment_loop_consistent (c : FragmentConfig) (target_mem : Z)
    (draws : list Draw) (st st' : FragState) (evs : list Event) :
  consistent st ->
  fragment_loop c target_mem draws st = Ok (st', evs) -> consistent st'.
Proof.
  intros Hc H.
  eapply (fragment_loop_invariant c target_mem consistent); eauto.
  intros; eapply body_step_consistent; eauto.
Qed.

(** C10. For a fragmenter as [__init__] builds it, after any number of
    iterations of the loop of [fragment] the [allocated] counter equals the
    sum of [element_size * nelement] over the tensors in [self._tensors];
    when [fragment] returns, the reported value is that sum over the
    returned collection. *)
Theorem allocated_equals_live_bytes (device : Z) (c : FragmentConfig)
    (target_mem : Z) (draws : list Draw) :
  let self := MemoryFragmenter_init device c in
  (exists st evs,
      fragment_loop c target_mem draws (fragment_start self) = Ok (st, evs) /\
      allocated st = live_bytes (live st)) /\
  match fragment self target_mem draws with
  | Ok (Some r) =>
      reported r = live_bytes (blocks r) /\ blocks r = _tensors (self_after r)
  | Ok None => True
  | Raise _ => False
  end.
Proof.
  intros self.
  destruct (fragment_loop_Ok c target_mem draws (fragment_start self))
    as (st & evs & Hrun).
  assert (Hc : consistent st).
  { eapply fragment_loop_consistent; [| exact Hrun]. reflexivity. }
  split; [eauto |].
  rewrite (fragment_of_loop self target_mem draws st evs Hrun).
  destruct (loop_cond target_mem st); simpl; auto.
Qed.

(** ** C2: the counter stays within the device's memory *)

Lemma body_step_within_total (c : FragmentConfig) (total_mem : Z) (d : Draw)
    (st st' : FragState) (ev : list Event) :
  consistent st -> positive_blocks st ->
  allocated st <= total_mem ->
  fits c total_mem d st = true ->
  body_step c d st st' ev ->
  allocated st' <= total_mem /\
  Forall (fun a => a <= total_mem) (counter_values ev).
Proof.
  unfold consistent, positive_blocks, fits, remaining_capacity.
  intros Hc Hp Hle Hfit Hb.
  destruct Hb as [b sizes Hch Hlt _ | b Hch Hge Hok | b Hch Hge Hok _
                 | b idx victim rest Hch Hge Hok _ _ Hpop];
    simpl; rewrite Hch in Hfit.
  - auto.
  - auto.
  - destruct (Z.ltb_spec b (min_block_bytes c)); [lia |].
    rewrite Hok in Hfit. apply Z.leb_le in Hfit.
    split; [lia |]. constructor; [lia | constructor].
  - destruct (Z.ltb_spec b (min_block_bytes c)); [lia |].
    rewrite Hok in Hfit. apply Z.leb_le in Hfit.
    assert (Hv : 1 <= tensor_bytes victim).
    { eapply (list_pop_Forall (fun t => 1 <= tensor_bytes t)) in Hpop;
        [tauto |].
      apply Forall_app. split; [assumption |].
      constructor; [apply new_tensor_bytes_pos | constructor]. }
    split; [lia |]. repeat constructor; lia.
Qed.

Lemma fragment_loop_within_total (c : FragmentConfig) (total_mem target_mem : Z)
    (draws : list Draw) :
  forall (st st' : FragState) (evs : list Event),
    consistent st -> positive_blocks st ->
    allocated st <= total_mem ->
    allocator_respects_capacity c total_mem target_mem draws st = true ->
    fragment_loop c target_mem draws st = Ok (st', evs) ->
    allocated st' <= total_mem /\
    Forall (fun a => a <= total_mem) (counter_values evs).
Proof.
  induction draws as [| d rest IH]; intros st st' evs Hc Hp Hle Hcap H.
  - simpl in H. injection H as <- <-. simpl. auto.
  - apply fragment_loop_cons_inv in H.
    destruct H as [(_ & -> & ->) | (Hcond & st1 & ev & evs' & Hbody & Hb & Hl & ->)].
    + simpl. auto.
    + simpl in Hcap. rewrite Hcond, Hbody in Hcap.
      apply andb_true_iff in Hcap. destruct Hcap as [Hfit Hrest].
      destruct (body_step_within_total c total_mem d st st1 ev) as [H1 H2];
        auto.
      destruct (IH st1 st' evs') as [H3 H4]; eauto with frag.
      split; [assumption |].
        unfold counter_values. rewrite flat_map_app.
        apply Forall_app. auto.
Qed.

(** C2. On a device of [total_mem] bytes whose allocator refuses every
    request above the remaining capacity, the [allocated] counter of
    [fragment] never exceeds [total_mem]: neither at the head of an iteration
    (after any number of iterations) nor at any assignment to it in between. *)
Theorem allocated_never_exceeds_total_memory (device : Z) (c : FragmentConfig)
    (total_mem target_mem : Z) (draws : list Draw) :
  0 <= total_mem ->
  allocator_respects_capacity c total_mem target_mem draws
    (fragment_start (MemoryFragmenter_init device c)) = true ->
  exists st evs,
    fragment_loop c target_mem draws
      (fragment_start (MemoryFragmenter_init device c)) = Ok (st, evs) /\
    allocated st <= total_mem /\
    Forall (fun a => a <= total_mem) (0 :: counter_values evs).
Proof.
  intros Htot Hcap.
  destruct (fragment_loop_Ok c target_mem draws
              (fragment_start (MemoryFragmenter_init device c)))
    as (st & evs & Hrun).
  exists st, evs. split; [exact Hrun |].
  assert (Hc : consistent (fragment_start (MemoryFragmenter_init device c)))
    by reflexivity.
  assert (Hp : positive_blocks (fragment_start (MemoryFragmenter_init device c)))
    by constructor.
  destruct (fragment_loop_within_total c total_mem target_mem draws _ st evs
              Hc Hp Htot Hcap Hrun) as [H1 H2].
  split; [assumption |]. constructor; assumption.
Qed.

Lemma allocated_never_exceeds_total_memory_witness :
  0 <= sample_total_mem /\
  allocator_respects_capacity default_config sample_total_mem sample_target_mem
    sample_draws (fragment_start (MemoryFragmenter_init 0 default_config)) = true /\
  exists st evs,
    fragment_loop default_config sample_target_mem sample_draws
      (fragment_start (MemoryFragmenter_init 0 default_config)) = Ok (st, evs) /\
    allocated st <= sample_total_mem /\
    Forall (fun a => a <= sample_total_mem) (0 :: counter_values evs).
Proof.
  split; [vm_compute; discriminate |].
  split; [vm_compute; reflexivity |].
  apply (allocated_never_exceeds_total_memory 0 default_config
           sample_total_mem sample_target_mem sample_draws);
    [vm_compute; discriminate | vm_compute; reflexivity].
Defined.

(** ** C3: what a free does, and the count of live blocks *)

Lemma count_allocs_app (e1 e2 : list Event) :
  count_allocs (e1 ++ e2) = (count_allocs e1 + count_allocs e2)%nat.
Proof. unfold count_allocs. now rewrite filter_app, length_app. Qed.

Lemma count_frees_app (e1 e2 : list Event) :
  count_frees (e1 ++ e2) = (count_frees e1 + count_frees e2)%nat.
Proof. unfold count_frees. now rewrite filter_app, length_app. Qed.

Lemma body_step_block_count (c : FragmentConfig) (d : Draw)
    (st st' : FragState) (ev : list Event) :
  body_step c d st st' ev ->
  (length (live st') + count_frees ev = length (live st) + count_allocs ev)%nat.
Proof.
  intros Hb.
  destruct Hb as [b sizes _ _ _ | b _ _ _ | b _ _ _ _
                 | b idx victim rest _ _ _ _ _ Hpop]; simpl;
    unfold count_frees, count_allocs; simpl; try lia.
  - rewrite length_app. simpl. lia.
  - apply list_pop_spec in Hpop. destruct Hpop as (_ & _ & Hlen).
    rewrite length_app in Hlen. simpl in Hlen. lia.
Qed.

Lemma fragment_loop_block_count (c : FragmentConfig) (target_mem : Z)
    (draws : list Draw) :
  forall (st st' : FragState) (evs : list Event),
    fragment_loop c target_mem draws st = Ok (st', evs) ->
    (length (live st') + count_frees evs
     = length (live st) + count_allocs evs)%nat.
Proof.
  induction draws as [| d rest IH]; intros st st' evs H.
  - simpl in H. injection H as <- <-. reflexivity.
  - apply fragment_loop_cons_inv in H.
    destruct H as [(_ & -> & ->) | (_ & st1 & ev & evs' & _ & Hb & Hl & ->)].
    + reflexivity.
    + apply body_step_block_count in Hb. apply IH in Hl.
      rewrite count_frees_app, count_allocs_app. lia.
Qed.

(** C3. (1) Whenever an iteration frees a block, the victim is one element of
    [self._tensors] as it is after the append, the collection afterwards is
    that list without this one element (its length is one less), and
    [allocated] is its value after the addition minus exactly the victim's
    bytes. (2) For a fragmenter as [__init__] builds it, after any number of
    iterations, and in particular when [fragment] returns, the number of
    live blocks is the number of successful allocations minus the number of
    frees. *)
Theorem free_removes_one_block_and_blocks_are_allocs_minus_frees
    (c : FragmentConfig) :
  (forall (d : Draw) (st st' : FragState) (ev : list Event)
          (idx : nat) (victim : Tensor) (counter : Z),
      loop_body c d st = Ok (st', ev) ->
      In (Freed idx victim counter) ev ->
      exists t,
        In (Allocated t (allocated st + tensor_bytes t)) ev /\
        nth_error (live st ++ [t]) idx = Some victim /\
        live st' = firstn idx (live st ++ [t]) ++ skipn (S idx) (live st ++ [t]) /\
        S (length (live st')) = length (live st ++ [t]) /\
        allocated st' = (allocated st + tensor_bytes t) - tensor_bytes victim /\
        counter = allocated st') /\
  (forall (device target_mem : Z) (draws : list Draw),
      let self := MemoryFragmenter_init device c in
      (exists st evs,
          fragment_loop c target_mem draws (fragment_start self) = Ok (st, evs) /\
          Z.of_nat (length (live st))
          = Z.of_nat (count_allocs evs) - Z.of_nat (count_frees evs)) /\
      match fragment self target_mem draws with
      | Ok (Some r) =>
          Z.of_nat (length (blocks r))
          = Z.of_nat (count_allocs (history r)) - Z.of_nat (count_frees (history r))
      | Ok None => True
      | Raise _ => False
      end).
Proof.
  split.
  - intros d st st' ev idx victim counter Hbody Hin.
    apply loop_body_inv in Hbody.
    destruct Hbody as [b sizes _ _ _ | b _ _ _ | b _ _ _ _
                      | b idx' victim' rest _ _ _ _ _ Hpop]; simpl in Hin.
    + destruct Hin as [Hin | []]; discriminate.
    + destruct Hin as [Hin | []]; discriminate.
    + destruct Hin as [Hin | []]; discriminate.
    + destruct Hin as [Hin | [Hin | []]]; [discriminate |].
      injection Hin as -> -> <-.
      apply list_pop_spec in Hpop. destruct Hpop as (Hn & Hr & Hlen).
      exists (new_tensor c b). simpl.
      repeat split; auto.
  - intros device target_mem draws self.
    destruct (fragment_loop_Ok c target_mem draws (fragment_start self))
      as (st & evs & Hrun).
    pose proof (fragment_loop_block_count c target_mem draws _ _ _ Hrun) as Hcnt.
    simpl in Hcnt.
    split; [exists st, evs; split; [exact Hrun | lia] |].
    rewrite (fragment_of_loop self target_mem draws st evs Hrun).
    destruct (loop_cond target_mem st); simpl; [trivial | lia].
Qed.

Lemma free_removes_one_block_witness :
  let st := fragment_start (MemoryFragmenter_init 0 default_config) in
  let t := mkTensor 4 134217728 in
  loop_body default_config (mkDraw 0 true (1 # 10) 0) st
  = Ok (st, [Allocated t 536870912; Freed 0 t 0]) /\
  exists t',
    In (Allocated t' (allocated st + tensor_bytes t'))
       [Allocated t 536870912; Freed 0 t 0] /\
    nth_error (live st ++ [t']) 0 = Some t /\
    live st = firstn 0 (live st ++ [t']) ++ skipn 1 (live st ++ [t']) /\
    S (length (live st)) = length (live st ++ [t']) /\
    allocated st = (allocated st + tensor_bytes t') - tensor_bytes t /\
    0 = allocated st.
Proof.
  intros st t. split; [vm_compute; reflexivity |].
  apply (proj1 (free_removes_one_block_and_blocks_are_allocs_minus_frees
                  default_config)
           (mkDraw 0 true (1 # 10) 0) st st
           [Allocated t 536870912; Freed 0 t 0] 0%nat t 0).
  - vm_compute; reflexivity.
  - simpl. right. left. reflexivity.
Defined.

(** ** C4: the fallback on a failed allocation *)

(** The comprehension, in the spec's words: halve every candidate, then drop
    those below the minimum. *)
Lemma halve_sizes_spec (min_block : Z) (sizes : list Z) :
  halve_sizes min_block sizes
  = filter (fun half => min_block <=? half) (map (fun size => size / 2) sizes).
Proof.
  induction sizes as [| s rest IH]; simpl; [reflexivity |].
  rewrite IH. destruct (min_block <=? s / 2); reflexivity.
Qed.

(** C4. When an iteration reaches [torch.empty] and the allocator refuses:
    the candidates become the halves (floor division by 2) of all candidates,
    without those halves that are below the minimum; [self._tensors] and
    [allocated] are unchanged; nothing else happens in the iteration (its
    only event is the failed attempt); and the loop goes on from that state
    with the remaining draws. *)
Theorem alloc_failure_halves_candidates (c : FragmentConfig) (target_mem : Z)
    (d : Draw) (rest : list Draw) (st : FragState) (b : Z) :
  loop_cond target_mem st = true ->
  random_choice (pick d) (block_sizes st) = Ok b ->
  min_block_bytes c <= b ->
  alloc_ok d = false ->
  let st' :=
    mkFragState (allocated st)
      (filter (fun half => min_block_bytes c <=? half)
              (map (fun size => size / 2) (block_sizes st)))
      (live st) in
  let ev := [AllocFailed (_bytes_to_elements b (dtype c))] in
  loop_body c d st = Ok (st', ev) /\
  fragment_loop c target_mem (d :: rest) st
  = (' (st2, evs) <- fragment_loop c target_mem rest st' ;; Ok (st2, ev ++ evs)).
Proof.
  intros Hcond Hch Hge Hok st' ev.
  assert (Hbody : loop_body c d st = Ok (st', ev)).
  { unfold loop_body. rewrite Hch. simpl.
    destruct (Z.ltb_spec b (min_block_bytes c)); [lia |].
    unfold torch_empty. rewrite Hok.
    unfold st', ev. now rewrite halve_sizes_spec. }
  split; [exact Hbody |].
  simpl. rewrite Hcond, Hbody. reflexivity.
Qed.

Lemma alloc_failure_halves_candidates_witness :
  let st := fragment_start (MemoryFragmenter_init 0 default_config) in
  let d := mkDraw 9 false (1 # 2) 0 in
  let st' :=
    mkFragState 0 [268435456; 134217728; 67108864; 33554432; 16777216;
                   8388608; 4194304; 2097152; 1048576] [] in
  loop_body default_config d st = Ok (st', [AllocFailed 262144]) /\
  fragment_loop default_config sample_target_mem [d] st
  = Ok (st', [AllocFailed 262144]).
Proof.
  intros st d st'.
  apply (alloc_failure_halves_candidates default_config sample_target_mem
           d [] st 1048576);
    [vm_compute; reflexivity | vm_compute; reflexivity
    | vm_compute; discriminate | reflexivity].
Defined.

(** ** C8: a minimum above every candidate *)

Lemma list_remove_length (x : Z) (l l' : list Z) :
  list_remove x l = Ok l' -> length l = S (length l').
Proof.
  intros H. apply list_remove_Permutation in H.
  apply Permutation_length in H. exact H.
Qed.

Lemma list_remove_incl (x : Z) (l l' : list Z) :
  list_remove x l = Ok l' -> forall y, In y l' -> In y l.
Proof.
  intros H y Hy. apply list_remove_Permutation in H.
  eapply Permutation_in; [symmetry; exact H | now right].
Qed.

Lemma fragment_loop_all_below_min (c : FragmentConfig) (target_mem : Z)
    (draws : list Draw) :
  forall st : FragState,
    (forall s, In s (block_sizes st) -> s < min_block_bytes c) ->
    (length (block_sizes st) <= length draws)%nat ->
    exists st' evs,
      fragment_loop c target_mem draws st = Ok (st', evs) /\
      loop_cond target_mem st' = false /\
      live st' = live st /\ allocated st' = allocated st /\
      evs = map Removed (removed_sizes evs) /\
      (allocated st < target_mem ->
       block_sizes st' = [] /\
       Permutation (removed_sizes evs) (block_sizes st)).
Proof.
  induction draws as [| d rest IH]; intros st Hbelow Hlen.
  - exists st, []. simpl in *.
    assert (Hnil : block_sizes st = [])
      by (destruct (block_sizes st); [reflexivity | simpl in Hlen; lia]).
    repeat split; auto.
    + apply loop_cond_false. now right.
    + rewrite Hnil. constructor.
  - destruct (loop_cond target_mem st) eqn:Hcond.
    + pose proof Hcond as Hc. apply loop_cond_true in Hc. destruct Hc as [Hlt Hne].
      destruct (loop_body_Ok c d st Hne) as (st1 & ev & Hbody).
      pose proof (loop_body_inv _ _ _ _ _ Hbody) as Hb.
      destruct Hb as [b sizes Hch _ Hrm | b Hch Hge _ | b Hch Hge _ _
                     | b idx victim rest' Hch Hge _ _ _ _];
        try (apply random_choice_In in Hch; apply Hbelow in Hch; lia).
      destruct (IH (mkFragState (allocated st) sizes (live st)))
        as (st' & evs & Hrun & Hstop & Hlive & Halloc & Hev & Hall).
      * simpl. intros s Hs. apply Hbelow. eapply list_remove_incl; eauto.
      * simpl. apply list_remove_length in Hrm. simpl in Hlen. lia.
      * exists st', ([Removed b] ++ evs).
        split; [eapply fragment_loop_step; eauto |].
        simpl in *. repeat split; auto.
        -- now rewrite <- Hev.
        -- now apply Hall.
        -- destruct (Hall Hlt) as [_ Hperm].
           apply list_remove_Permutation in Hrm.
           rewrite Hrm. now constructor.
    + exists st, []. rewrite (fragment_loop_stop _ _ _ _ Hcond).
      repeat split; auto.
      * apply loop_cond_false in Hcond. destruct Hcond; [lia | assumption].
      * apply loop_cond_false in Hcond. destruct Hcond as [| ->]; [lia |].
        constructor.
Qed.

Lemma block_size_bytes_below_min (c : FragmentConfig) :
  (forall s, In s (block_size_mib c) -> s < min_block_mib c) ->
  forall s, In s (block_size_bytes c) -> s < min_block_bytes c.
Proof.
  intros H s Hs. unfold block_size_bytes in Hs.
  apply in_map_iff in Hs. destruct Hs as (m & <- & Hm).
  apply H in Hm. unfold min_block_bytes. lia.
Qed.

(** C8, as the code has it. If [min_block_mib] is above every configured
    block size, [fragment] returns within as many iterations as there are
    candidates; it never attempts an allocation (every iteration it runs
    removes a candidate); it returns an empty list and reports zero bytes.
    When [target_mem] is positive the loop ends with no candidate left,
    having removed each of them; when it is not, the loop is not entered. *)
Theorem min_block_above_all_candidates (device : Z) (c : FragmentConfig)
    (target_mem : Z) (draws : list Draw) :
  (forall s, In s (block_size_mib c) -> s < min_block_mib c) ->
  (length (block_size_mib c) <= length draws)%nat ->
  let self := MemoryFragmenter_init device c in
  exists st evs,
    fragment_loop c target_mem draws (fragment_start self) = Ok (st, evs) /\
    fragment self target_mem draws = Ok (Some (mkFragmented self [] 0 evs)) /\
    filter is_attempt evs = [] /\
    evs = map Removed (removed_sizes evs) /\
    (0 < target_mem ->
     block_sizes st = [] /\
     Permutation (removed_sizes evs) (block_size_bytes c)) /\
    (target_mem <= 0 -> evs = []).
Proof.
  intros Hmin Hlen self.
  destruct (fragment_loop_all_below_min c target_mem draws (fragment_start self))
    as (st & evs & Hrun & Hstop & Hlive & Halloc & Hev & Hall).
  { simpl. now apply block_size_bytes_below_min. }
  { simpl. unfold block_size_bytes. now rewrite length_map. }
  simpl in Hlive, Halloc, Hall.
  exists st, evs. split; [exact Hrun |].
  split.
  { rewrite (fragment_of_loop self target_mem draws st evs Hrun).
    rewrite Hstop, Hlive, Halloc. reflexivity. }
  split.
  { rewrite Hev. clear. induction (removed_sizes evs); simpl; auto. }
  split; [exact Hev |].
  split; [exact Hall |].
  intros Hle.
  assert (Hc0 : loop_cond target_mem (fragment_start self) = false).
  { apply loop_cond_false. left. simpl. lia. }
  rewrite (fragment_loop_stop _ _ _ _ Hc0) in Hrun.
  now injection Hrun as _ <-.
Qed.

Lemma min_block_above_all_candidates_witness :
  let self := MemoryFragmenter_init 0 config_min_1024 in
  let draws := repeat (mkDraw 0 true (1 # 2) 0) 10 in
  exists st evs,
    fragment_loop config_min_1024 sample_target_mem draws (fragment_start self)
    = Ok (st, evs) /\
    fragment self sample_target_mem draws = Ok (Some (mkFragmented self [] 0 evs)) /\
    filter is_attempt evs = [] /\
    evs = map Removed (removed_sizes evs) /\
    (0 < sample_target_mem ->
     block_sizes st = [] /\
     Permutation (removed_sizes evs) (block_size_bytes config_min_1024)) /\
    (sample_target_mem <= 0 -> evs = []).
Proof.
  intros self draws.
  apply (min_block_above_all_candidates 0 config_min_1024 sample_target_mem draws).
  - simpl. intros s Hs.
    repeat (destruct Hs as [<- | Hs]; [lia |]). destruct Hs.
  - simpl. lia.
Defined.

(** C8 does not hold when the target is not positive: the loop is not
    entered, so [fragment] returns without having removed any candidate,
    although [min_block_mib] is above all of them. *)
Lemma min_block_above_all_candidates_counterexample :
  let self := MemoryFragmenter_init 0 config_min_1024 in
  let draws := repeat (mkDraw 0 true (1 # 2) 0) 10 in
  (forall s, In s (block_size_mib config_min_1024) ->
             s < min_block_mib config_min_1024) /\
  fragment_loop config_min_1024 0 draws (fragment_start self)
  = Ok (fragment_start self, []) /\
  fragment self 0 draws = Ok (Some (mkFragmented self [] 0 [])) /\
  block_sizes (fragment_start self) = block_size_bytes config_min_1024 /\
  ~ Permutation (removed_sizes []) (block_size_bytes config_min_1024).
Proof.
  intros self draws. split; [| split; [| split; [| split]]].
  - simpl. intros s Hs.
    repeat (destruct Hs as [<- | Hs]; [lia |]). destruct Hs.
  - reflexivity.
  - reflexivity.
  - reflexivity.
  - intros H. apply Permutation_length in H. discriminate.
Qed.

(** ** C1: termination of the fragmentation loop *)

Lemma prefix_const (d : Draw) (n : nat) : prefix (fun _ => d) n = repeat d n.
Proof.
  unfold prefix. generalize 0%nat.
  induction n as [| n IH]; intros k; simpl; [reflexivity | now rewrite IH].
Qed.

Lemma prefix_app (rng : nat -> Draw) (n k : nat) :
  prefix rng (n + k) = prefix rng n ++ map rng (seq n k).
Proof.
  unfold prefix. now rewrite seq_app, map_app.
Qed.

(** With the default configuration, when every request is granted and every
    free decision fires, each iteration allocates a block and frees it
    again: the loop is back in its first state. *)
Lemma always_free_returns_to_start (n : nat) :
  let st0 := fragment_start (MemoryFragmenter_init 0 default_config) in
  exists evs,
    fragment_loop default_config sample_target_mem
      (prefix rng_always_freed n) st0 = Ok (st0, evs).
Proof.
  intros st0. unfold rng_always_freed. rewrite prefix_const.
  induction n as [| n [evs IH]]; [simpl; eauto |].
  eexists. cbn [repeat].
  eapply fragment_loop_step; [| | exact IH]; vm_compute; reflexivity.
Qed.

Lemma halve_sizes_min_0 (sizes : list Z) :
  sizes <> [] -> Forall (fun s => 0 <= s) sizes ->
  halve_sizes 0 sizes <> [] /\ Forall (fun s => 0 <= s) (halve_sizes 0 sizes).
Proof.
  intros Hne HF. split.
  - destruct sizes as [| s rest]; [congruence |].
    inversion HF; subst. simpl.
    destruct (Z.leb_spec 0 (s / 2)) as [_ | Hlt]; [discriminate |].
    pose proof (Z.div_pos s 2). lia.
  - clear Hne. induction HF as [| s rest Hs _ IH]; simpl; [constructor |].
    destruct (Z.leb_spec 0 (s / 2)); [constructor |]; assumption.
Qed.

(** With [--min-block-mib 0] and an allocator that refuses every request,
    the candidates are halved for ever and never dropped. *)
Lemma always_refused_keeps_running (n : nat) :
  let st0 := fragment_start (MemoryFragmenter_init 0 config_min_0) in
  forall st evs,
    fragment_loop config_min_0 sample_target_mem
      (prefix rng_always_refused n) st0 = Ok (st, evs) ->
    loop_cond sample_target_mem st = true.
Proof.
  intros st0 st evs Hrun.
  set (P := fun s : FragState =>
              allocated s = 0 /\ block_sizes s <> [] /\
              Forall (fun x => 0 <= x) (block_sizes s)).
  assert (HP : P st).
  { eapply (fragment_loop_invariant_on config_min_0 sample_target_mem
              (fun d => alloc_ok d = false) P); [| | | exact Hrun].
    - intros d s s' ev Hd (Ha & Hne & HF) _ Hb.
      destruct Hb as [b sizes Hch Hlt _ | b _ _ _ | b _ _ Hok _
                     | b idx victim rest _ _ Hok _ _ _];
        try congruence.
      + apply random_choice_In in Hch.
        rewrite Forall_forall in HF. apply HF in Hch.
        unfold min_block_bytes in Hlt. simpl in Hlt. lia.
      + unfold P. simpl. split; [assumption |].
        now apply halve_sizes_min_0.
    - unfold rng_always_refused. rewrite prefix_const.
      clear. induction n; simpl; constructor; auto.
    - unfold P. split; [reflexivity |]. split; [discriminate |].
      vm_compute. repeat constructor; discriminate. }
  destruct HP as (Ha & Hne & _).
  apply loop_cond_true. rewrite Ha. split; [reflexivity | assumption].
Qed.

(** C1 does not hold for every configuration and every sequence of draws:
    the loop runs for ever when every allocation is followed by a free (here
    with the default configuration), and when the minimum is zero and every
    allocation is refused. *)
Lemma fragment_loop_terminates_counterexample :
  (~ exists n st,
       loop_exits default_config sample_target_mem rng_always_freed
         (fragment_start (MemoryFragmenter_init 0 default_config)) n st) /\
  (~ exists n st,
       loop_exits config_min_0 sample_target_mem rng_always_refused
         (fragment_start (MemoryFragmenter_init 0 config_min_0)) n st).
Proof.
  split; intros (n & st & evs & Hrun & Hstop).
  - destruct (always_free_returns_to_start n) as [evs' Hrun'].
    rewrite Hrun' in Hrun. injection Hrun as <- _.
    vm_compute in Hstop. discriminate.
  - apply always_refused_keeps_running in Hrun. congruence.
Qed.

Lemma size_weight_remove (x : Z) (l l' : list Z) :
  list_remove x l = Ok l' -> (size_weight l' < size_weight l)%nat.
Proof.
  revert l'. induction l as [| y l IH]; simpl; intros l' H; [discriminate |].
  destruct (y =? x).
  - injection H as <-. lia.
  - bind_inv H. injection H as <-. apply IH in Ha. simpl. lia.
Qed.

Lemma size_weight_halve (min_block : Z) (l : list Z) :
  0 < min_block ->
  (size_weight (halve_sizes min_block l) + length l <= size_weight l)%nat.
Proof.
  intros Hmin. induction l as [| s l IH]; simpl; [lia |].
  destruct (Z.leb_spec min_block (s / 2)) as [Hge | Hlt]; simpl; [| lia].
  assert (Hs : (Z.to_nat (s / 2) < Z.to_nat s)%nat).
  { assert (2 <= s) by (pose proof (Z.div_mod s 2); pose proof (Z.mod_pos_bound s 2); lia).
    assert (s / 2 < s) by (apply Z.div_lt; lia).
    lia. }
  lia.
Qed.

Lemma body_step_variant (c : FragmentConfig) (target_mem : Z) (d : Draw)
    (st st' : FragState) (ev : list Event) :
  0 < min_block_bytes c ->
  loop_cond target_mem st = true ->
  free_fires c d = false ->
  body_step c d st st' ev ->
  (variant target_mem st' < variant target_mem st)%nat.
Proof.
  intros Hmin Hcond Hfree Hb. apply loop_cond_true in Hcond.
  destruct Hcond as [Hlt Hne]. unfold variant.
  destruct Hb as [b sizes _ _ Hrm | b _ _ _ | b _ _ _ _
                 | b idx victim rest _ _ _ Hf _ _]; simpl.
  - apply size_weight_remove in Hrm. lia.
  - pose proof (size_weight_halve (min_block_bytes c) (block_sizes st) Hmin).
    assert (0 < length (block_sizes st))%nat
      by (destruct (block_sizes st); [congruence | simpl; lia]).
    lia.
  - pose proof (new_tensor_bytes_pos c b). lia.
  - congruence.
Qed.

(** Without frees and with a positive minimum the loop ends within as many
    iterations as its variant says. *)
Lemma fragment_loop_exits_without_free (c : FragmentConfig) (target_mem : Z)
    (draws : list Draw) :
  0 < min_block_bytes c ->
  Forall (fun d => free_fires c d = false) draws ->
  forall st : FragState,
    (variant target_mem st <= length draws)%nat ->
    exists st' evs,
      fragment_loop c target_mem draws st = Ok (st', evs) /\
      loop_cond target_mem st' = false.
Proof.
  intros Hmin HF. induction HF as [| d rest Hd _ IH]; intros st Hvar.
  - exists st, []. split; [reflexivity |].
    apply loop_cond_false. left. unfold variant in Hvar. simpl in Hvar. lia.
  - destruct (loop_cond target_mem st) eqn:Hcond.
    + pose proof Hcond as Hc. apply loop_cond_true in Hc. destruct Hc as [_ Hne].
      destruct (loop_body_Ok c d st Hne) as (st1 & ev & Hbody).
      pose proof (body_step_variant c target_mem d st st1 ev Hmin Hcond Hd
                    (loop_body_inv _ _ _ _ _ Hbody)) as Hdec.
      destruct (IH st1) as (st' & evs & Hrun & Hstop); [simpl in Hvar; lia |].
      exists st', (ev ++ evs).
      split; [eapply fragment_loop_step; eauto | assumption].
    + exists st, []. split; [now apply fragment_loop_stop | assumption].
Qed.

(** C1, as the code has it. When [min_block_mib] is positive and, from some
    iteration on, no free decision fires (as with [random_free_ratio = 0]),
    then for every sequence of size choices and allocation outcomes the loop
    of [fragment] terminates, with [allocated >= target_mem] or with no
    candidate size left, and [fragment] returns. *)
Theorem fragment_loop_terminates (device : Z) (c : FragmentConfig)
    (target_mem : Z) (rng : nat -> Draw) (N : nat) :
  0 < min_block_mib c ->
  (forall i, (N <= i)%nat -> free_fires c (rng i) = false) ->
  let self := MemoryFragmenter_init device c in
  exists n st,
    loop_exits c target_mem rng (fragment_start self) n st /\
    (target_mem <= allocated st \/ block_sizes st = []) /\
    exists r, fragment self target_mem (prefix rng n) = Ok (Some r).
Proof.
  intros Hmin Hfree self.
  destruct (fragment_loop_Ok c target_mem (prefix rng N) (fragment_start self))
    as (st1 & e1 & Hrun1).
  set (k := variant target_mem st1).
  destruct (fragment_loop_exits_without_free c target_mem (map rng (seq N k)))
    with (st := st1) as (st2 & e2 & Hrun2 & Hstop).
  { unfold min_block_bytes. lia. }
  { apply Forall_forall. intros d Hd. apply in_map_iff in Hd.
    destruct Hd as (i & <- & Hi). apply in_seq in Hi. apply Hfree. lia. }
  { rewrite length_map, length_seq. reflexivity. }
  pose proof (fragment_loop_app _ _ _ _ _ _ _ _ _ Hrun1 Hrun2) as Hrun.
  rewrite <- prefix_app in Hrun.
  exists (N + k)%nat, st2. split; [exists (e1 ++ e2); auto |].
  split; [now apply loop_cond_false |].
  rewrite (fragment_of_loop self target_mem _ st2 _ Hrun), Hstop. eauto.
Qed.

Lemma fragment_loop_terminates_witness :
  let c := mkFragmentConfig (95 # 100) default_block_size_mib 1 torch_float32 0 in
  let self := MemoryFragmenter_init 0 c in
  0 < min_block_mib c /\
  (forall i, (0 <= i)%nat -> free_fires c (rng_always_granted i) = false) /\
  exists n st,
    loop_exits c sample_target_mem rng_always_granted (fragment_start self) n st /\
    (sample_target_mem <= allocated st \/ block_sizes st = []) /\
    exists r, fragment self sample_target_mem (prefix rng_always_granted n)
              = Ok (Some r).
Proof.
  intros c self.
  split; [reflexivity |]. split; [intros i _; reflexivity |].
  apply (fragment_loop_terminates 0 c sample_target_mem rng_always_granted 0);
    [reflexivity | intros i _; reflexivity].
Defined.

(** ** C5: the compute loop stops only at a synchronisation *)

Section ComputeLoop.

Variable elapsed_at : Z -> Q.
Variable target_sec : Q.

Lemma compute_loop_inv (fuel : nat) :
  forall (iteration : Z) (checked : list Z) (n : Z) (chk : list Z),
    compute_loop fuel elapsed_at target_sec iteration checked = Some (n, chk) ->
    iteration < n <= iteration + Z.of_nat fuel /\
    n mod 8 = 0 /\
    Qle_bool target_sec (elapsed_at n) = true /\
    exists more,
      chk = checked ++ more /\
      Forall (fun i => i mod 8 = 0 /\ iteration < i <= n) more.
Proof.
  induction fuel as [| fuel IH]; intros iteration checked n chk H;
    [discriminate |].
  cbn [compute_loop] in H.
  destruct (Z.eqb_spec ((iteration + 1) mod 8) 0) as [Hm | Hm].
  - destruct (Qle_bool target_sec (elapsed_at (iteration + 1))) eqn:Hq.
    + injection H as <- <-.
      repeat split; try lia; try assumption.
      exists [iteration + 1]. split; [reflexivity |].
      constructor; [lia | constructor].
    + apply IH in H. destruct H as (Hn & Hmod & Hexp & more & -> & HF).
      repeat split; try lia; try assumption.
      exists ((iteration + 1) :: more). split; [now rewrite <- app_assoc |].
      constructor; [lia |].
      eapply Forall_impl; [| exact HF]. simpl. intros; lia.
  - apply IH in H. destruct H as (Hn & Hmod & Hexp & more & -> & HF).
    repeat split; try lia; try assumption.
    exists more. split; [reflexivity |].
    eapply Forall_impl; [| exact HF]. simpl. intros; lia.
Qed.

Lemma compute_loop_last (fuel : nat) :
  forall (iteration : Z) (checked : list Z) (n : Z) (chk : list Z),
    compute_loop fuel elapsed_at target_sec iteration checked = Some (n, chk) ->
    last chk 0 = n.
Proof.
  induction fuel as [| fuel IH]; intros iteration checked n chk H;
    [discriminate |].
  cbn [compute_loop] in H.
  destruct ((iteration + 1) mod 8 =? 0); [| eapply IH; eauto].
  destruct (Qle_bool target_sec (elapsed_at (iteration + 1)));
    [| eapply IH; eauto].
  injection H as <- <-. apply last_last.
Qed.

(** Only the readings at multiples of 8 are looked at. *)
Lemma compute_loop_ext (elapsed_at' : Z -> Q) (fuel : nat) :
  (forall i, i mod 8 = 0 -> elapsed_at' i = elapsed_at i) ->
  forall iteration checked,
    compute_loop fuel elapsed_at' target_sec iteration checked
    = compute_loop fuel elapsed_at target_sec iteration checked.
Proof.
  intros Heq. induction fuel as [| fuel IH]; intros iteration checked;
    [reflexivity |].
  cbn [compute_loop].
  destruct (Z.eqb_spec ((iteration + 1) mod 8) 0) as [Hm | Hm]; [| apply IH].
  rewrite (Heq _ Hm), IH. reflexivity.
Qed.

Lemma compute_loop_first_sync (fuel : nat) :
  Qle_bool target_sec (elapsed_at 8) = true ->
  (8 <= fuel)%nat ->
  compute_loop fuel elapsed_at target_sec 0 [] = Some (8, [8]).
Proof.
  intros Hq Hfuel.
  do 8 (destruct fuel as [| fuel]; [lia |]).
  cbn. rewrite Hq. reflexivity.
Qed.

End ComputeLoop.

(** C5. The compute loop reads the clock and tests [elapsed >= target_sec]
    only at iterations that are multiples of 8 (the readings at other
    iterations do not matter). So for every [target_sec], that is every
    [hours]: if the loop stops, its iteration counter is a positive multiple
    of 8, at least 8, and that many iterations were run; it never stops
    within fewer than 8 iterations; and when the duration has already
    elapsed at the first synchronisation (as for [hours = 0]) it stops at
    iteration 8 exactly. *)
Theorem compute_loop_stops_only_at_multiples_of_8
    (elapsed_at : Z -> Q) (target_sec : Q) (fuel : nat) :
  match compute_loop fuel elapsed_at target_sec 0 [] with
  | Some (n, checked) =>
      8 <= n /\ n mod 8 = 0 /\ n <= Z.of_nat fuel /\
      Forall (fun i => i mod 8 = 0) checked /\
      last checked 0 = n /\
      Qle_bool target_sec (elapsed_at n) = true
  | None => True
  end /\
  ((fuel < 8)%nat -> compute_loop fuel elapsed_at target_sec 0 [] = None) /\
  (forall elapsed_at',
      (forall i, i mod 8 = 0 -> elapsed_at' i = elapsed_at i) ->
      compute_loop fuel elapsed_at' target_sec 0 []
      = compute_loop fuel elapsed_at target_sec 0 []) /\
  (Qle_bool target_sec (elapsed_at 8) = true -> (8 <= fuel)%nat ->
   compute_loop fuel elapsed_at target_sec 0 [] = Some (8, [8])).
Proof.
  assert (Hinv : forall n chk,
             compute_loop fuel elapsed_at target_sec 0 [] = Some (n, chk) ->
             8 <= n /\ n mod 8 = 0 /\ n <= Z.of_nat fuel /\
             Forall (fun i => i mod 8 = 0) chk /\
             last chk 0 = n /\
             Qle_bool target_sec (elapsed_at n) = true).
  { intros n chk H. pose proof H as H'.
    apply compute_loop_inv in H.
    destruct H as (Hn & Hmod & Hexp & more & -> & HF).
    assert (H8 : 8 <= n).
    { pose proof (Z.div_mod n 8). lia. }
    repeat split; try lia; try assumption.
    - simpl. eapply Forall_impl; [| exact HF]. simpl. tauto.
    - simpl. apply (compute_loop_last _ _ _ _ _ _ _ H').
  }
  split; [| split; [| split]].
  - destruct (compute_loop fuel elapsed_at target_sec 0 []) as [[n chk] |];
      [now apply Hinv | exact I].
  - intros Hlt.
    destruct (compute_loop fuel elapsed_at target_sec 0 []) as [[n chk] |];
      [| reflexivity].
    specialize (Hinv n chk eq_refl). lia.
  - intros e' He. now apply compute_loop_ext.
  - apply compute_loop_first_sync.
Qed.

Lemma compute_loop_stops_only_at_multiples_of_8_witness :
  compute_loop 8 (fun _ => 0%Q) 0%Q 0 [] = Some (8, [8]).
Proof.
  apply (proj2 (proj2 (proj2
           (compute_loop_stops_only_at_multiples_of_8 (fun _ => 0%Q) 0%Q 8))));
    [reflexivity | lia].
Defined.

(** ** C6: an invalid [--device] *)

(** C6. When [--device] is given and is not in [0, device_count), [main]
    raises [ValueError] and [run_on_gpu] is called for no device: neither
    fragmentation nor compute work is performed. *)
Theorem invalid_device_raises_before_any_work (args : Namespace)
    (device_count device : Z) :
  args_device args = Some device ->
  ~ (0 <= device < device_count) ->
  main args device_count = Raise (ValueError (invalid_gpu_id device)) /\
  work_performed (main args device_count) = [].
Proof.
  intros Hdev Hout. unfold main. rewrite Hdev.
  assert (Hb : (0 <=? device) && (device <? device_count) = false).
  { apply andb_false_iff.
    destruct (Z.leb_spec 0 device); [| now left].
    destruct (Z.ltb_spec device device_count); [lia | now right]. }
  rewrite Hb. simpl. auto.
Qed.

Lemma invalid_device_raises_before_any_work_witness :
  args_device args_device_2 = Some 2 /\
  ~ (0 <= 2 < 2) /\
  main args_device_2 2 = Raise (ValueError "Invalid GPU id 2") /\
  work_performed (main args_device_2 2) = [].
Proof.
  split; [reflexivity |]. split; [lia |].
  apply (invalid_device_raises_before_any_work args_device_2 2 2);
    [reflexivity | lia].
Defined.

(** ** C7: the invariant of the data model *)

(** C7 does not hold: [FragmentConfig] checks nothing. [main] builds a
    configuration that breaks the invariant from [--min-block-mib 1024], and
    the dataclass accepts an increasing list of sizes. *)
Lemma config_invariant_counterexample :
  config_invariant (main_config args_min_1024) = false /\
  min_block_mib (main_config args_min_1024) = 1024 /\
  largest (block_size_mib (main_config args_min_1024)) = Some 512 /\
  config_invariant (mkFragmentConfig 1 [1; 2] 1 torch_float32 0) = false.
Proof. repeat split. Qed.

(** C7, as the code has it. The default configuration satisfies the
    invariant. A configuration built by [main] has the default list of
    candidate sizes, which is non-increasing, whatever the arguments; it
    satisfies the invariant exactly when [--min-block-mib] is at most 512,
    the largest candidate. *)
Theorem main_config_invariant (args : Namespace) :
  config_invariant default_config = true /\
  block_size_mib (main_config args) = default_block_size_mib /\
  non_increasing (block_size_mib (main_config args)) = true /\
  largest (block_size_mib (main_config args)) = Some 512 /\
  config_invariant (main_config args) = (args_min_block_mib args <=? 512).
Proof. repeat split. Qed.

(** ** C9: one worker per device, all joined *)

Lemma dict_set_fresh (threads : list (Z * Thread)) (key : Z) (th : Thread) :
  (forall k v, In (k, v) threads -> k <> key) ->
  dict_set threads key th = threads ++ [(key, th)].
Proof.
  induction threads as [| [k v] rest IH]; intros Hfresh; simpl; [reflexivity |].
  destruct (Z.eqb_spec k key) as [-> | _].
  - exfalso. apply (Hfresh key v); [now left | reflexivity].
  - rewrite IH; [reflexivity |].
    intros k' v' Hin. apply (Hfresh k' v'). now right.
Qed.

Section Workers.

Variable hours : Q.
Variable config : FragmentConfig.

Lemma spawn_workers_spec (n : nat) :
  forall (k : nat) (threads : list (Z * Thread)) (issued : list Cmd),
    length issued = k ->
    threads = map (fun i => (Z.of_nat i, worker hours config i)) (seq 0 k) ->
    spawn_workers (map Z.of_nat (seq k n)) hours config threads issued
    = (map (fun i => (Z.of_nat i, worker hours config i)) (seq 0 (k + n)),
       issued ++ map Start (map (worker hours config) (seq k n))).
Proof.
  induction n as [| n IH]; intros k threads issued Hlen Hth.
  - simpl. now rewrite Nat.add_0_r, app_nil_r, Hth.
  - cbn [seq map spawn_workers]. rewrite Hlen.
    fold (worker hours config k).
    rewrite dict_set_fresh.
    + rewrite (IH (S k)).
      * rewrite <- app_assoc. simpl. now rewrite Nat.add_succ_r.
      * rewrite length_app. simpl. lia.
      * rewrite seq_S, map_app, Hth. reflexivity.
    + intros key v Hin Heq. rewrite Hth in Hin.
      apply in_map_iff in Hin. destruct Hin as (i & Hi & Hseq).
      injection Hi as Hi _. apply in_seq in Hseq. lia.
Qed.

(** [run_all_gpus] starts the workers of the devices in order, then joins
    them in the same order. *)
Lemma run_all_gpus_cmds (device_count : Z) :
  let workers := map (worker hours config) (seq 0 (Z.to_nat device_count)) in
  run_all_gpus hours config device_count = map Start workers ++ map Join workers.
Proof.
  intros workers. unfold run_all_gpus, range.
  rewrite (spawn_workers_spec (Z.to_nat device_count) 0 [] []);
    [| reflexivity | reflexivity].
  cbn [app]. unfold dict_values, workers.
  rewrite !map_map. reflexivity.
Qed.

Lemma worker_idents (l : list nat) :
  map ident (map (worker hours config) l) = l.
Proof.
  rewrite map_map. simpl. apply map_id.
Qed.

End Workers.

Lemma started_ids_app (a b : list Cmd) :
  started_ids (a ++ b) = started_ids a ++ started_ids b.
Proof. unfold started_ids. apply flat_map_app. Qed.

Lemma joined_ids_app (a b : list Cmd) :
  joined_ids (a ++ b) = joined_ids a ++ joined_ids b.
Proof. unfold joined_ids. apply flat_map_app. Qed.

Lemma started_ids_Start (ws : list Thread) :
  started_ids (map Start ws) = map ident ws /\ joined_ids (map Start ws) = [].
Proof.
  induction ws as [| w ws [IH1 IH2]]; simpl; [auto |].
  unfold started_ids, joined_ids in *. simpl. rewrite IH1, IH2. auto.
Qed.

Lemma joined_ids_Join (ws : list Thread) :
  joined_ids (map Join ws) = map ident ws /\ started_ids (map Join ws) = [].
Proof.
  induction ws as [| w ws [IH1 IH2]]; simpl; [auto |].
  unfold started_ids, joined_ids in *. simpl. rewrite IH1, IH2. auto.
Qed.

Lemma sys_step_inv (cmds : list Cmd) (s s' : Sys) :
  NoDup (started_ids cmds) ->
  sys_inv cmds s -> sys_step s s' -> sys_inv cmds s'.
Proof.
  intros Hnd (done & Hcmds & HR & HF & HJ & HndR & HndF & Hdisj) Hstep.
  destruct Hstep as [th k R F | i k R F Hin | th k R F Hin]; simpl in *.
  - (* start *)
    assert (Hfresh : ~ In (ident th) (started_ids done)).
    { rewrite Hcmds, started_ids_app in Hnd. simpl in Hnd.
      apply NoDup_remove_2 in Hnd. intros Hi. apply Hnd.
      apply in_or_app. now left. }
    exists (done ++ [Start th]). simpl.
    rewrite <- app_assoc. split; [exact Hcmds |].
    rewrite started_ids_app, joined_ids_app. simpl. rewrite app_nil_r.
    repeat split.
    + intros i [<- | Hi]; apply in_or_app; [right; now left | left; auto].
    + intros i Hi. apply in_or_app. left. auto.
    + exact HJ.
    + constructor; [| exact HndR]. intros Hi. apply Hfresh. auto.
    + exact HndF.
    + intros i [<- | Hi]; [| auto]. intros Hi. apply Hfresh. auto.
  - (* a worker finishes *)
    exists done. split; [exact Hcmds |].
    repeat split.
    + intros j Hj. apply filter_In in Hj. apply HR. tauto.
    + intros j [<- | Hj]; auto.
    + intros j Hj. right. auto.
    + now apply NoDup_filter.
    + constructor; auto.
    + intros j Hj [<- | Hj'].
      * apply filter_In in Hj. destruct Hj as [_ Hj].
        rewrite Nat.eqb_refl in Hj. discriminate.
      * apply filter_In in Hj. apply (Hdisj j); tauto.
  - (* join *)
    exists (done ++ [Join th]). simpl.
    rewrite <- app_assoc. split; [exact Hcmds |].
    rewrite started_ids_app, joined_ids_app. simpl. rewrite app_nil_r.
    repeat split; auto.
    intros i Hi. apply in_app_or in Hi. destruct Hi as [Hi | [<- | []]]; auto.
Qed.

Lemma sys_steps_inv (cmds : list Cmd) (s s' : Sys) :
  NoDup (started_ids cmds) ->
  sys_inv cmds s -> sys_steps s s' -> sys_inv cmds s'.
Proof.
  intros Hnd Hinv Hsteps. induction Hsteps as [| s1 s2 s3 Hstep _ IH];
    [assumption |].
  apply IH. eapply sys_step_inv; eauto.
Qed.

Lemma sys_steps_trans (s1 s2 s3 : Sys) :
  sys_steps s1 s2 -> sys_steps s2 s3 -> sys_steps s1 s3.
Proof.
  intros H12 H23. induction H12 as [| a b c Hab _ IH]; [assumption |].
  eapply steps_cons; eauto.
Qed.

Lemma sys_start_all (ws : list Thread) :
  forall (k : list Cmd) (R F : list nat),
    sys_steps (mkSys (map Start ws ++ k) R F)
              (mkSys k (rev (map ident ws) ++ R) F).
Proof.
  induction ws as [| w ws IH]; intros k R F; simpl; [constructor |].
  eapply steps_cons; [apply step_start |].
  rewrite <- app_assoc. apply IH.
Qed.

Lemma filter_other_notin (i : nat) (R : list nat) :
  ~ In i R -> filter (fun j => negb (Nat.eqb j i)) R = R.
Proof.
  induction R as [| j R IH]; intros Hni; simpl; [reflexivity |].
  destruct (Nat.eqb_spec j i) as [-> | _]; simpl.
  - exfalso. apply Hni. now left.
  - rewrite IH; [reflexivity |]. intros Hi. apply Hni. now right.
Qed.

Lemma sys_finish_all (R : list nat) :
  NoDup R ->
  forall (k : list Cmd) (F : list nat),
    sys_steps (mkSys k R F) (mkSys k [] (rev R ++ F)).
Proof.
  intros Hnd. induction Hnd as [| i R Hni _ IH]; intros k F; simpl;
    [constructor |].
  eapply steps_cons; [apply (step_finish i); now left |].
  simpl. rewrite Nat.eqb_refl. simpl.
  rewrite (filter_other_notin i R Hni), <- app_assoc. apply IH.
Qed.

Lemma sys_join_all (ws : list Thread) (F : list nat) :
  (forall w, In w ws -> In (ident w) F) ->
  sys_steps (mkSys (map Join ws) [] F) (mkSys [] [] F).
Proof.
  induction ws as [| w ws IH]; intros HF; simpl; [constructor |].
  eapply steps_cons; [apply step_join; apply HF; now left |].
  apply IH. intros w' Hw'. apply HF. now right.
Qed.

(** C9. [run_all_gpus] issues one [start] per device id of
    [range(device_count)], each for a thread of its own whose target is
    [run_on_gpu] on [(device_id, hours, config)], that is, a fresh fragmenter
    for that device followed by the compute loop; then it joins every one of
    them. In every execution of the caller together with its workers, once
    the caller has returned no worker is still running and the finished
    workers are exactly the started ones; and such an execution exists. *)
Theorem run_all_gpus_one_worker_per_device (hours : Q) (config : FragmentConfig)
    (device_count : Z) :
  let ids := seq 0 (Z.to_nat device_count) in
  let workers := map (worker hours config) ids in
  let cmds := run_all_gpus hours config device_count in
  cmds = map Start workers ++ map Join workers /\
  map args workers
  = map (fun device_id => (device_id, hours, config)) (range device_count) /\
  (forall i env,
      thread_run (worker hours config i) env
      = (tensors <- fragment (MemoryFragmenter_init (Z.of_nat i) config)
                      (env_target_mem env) (env_draws env) ;;
         match tensors with
         | None => Ok None
         | Some fr =>
             match compute_loop (env_fuel env) (env_elapsed_at env)
                                (env_target_sec env) 0 [] with
             | None => Ok None
             | Some (n, checked) =>
                 Ok (Some (mkStressed fr
                             (if 20 * 1024 ^ 3 <=? env_total_memory env
                              then 6144 else 4096) n checked))
             end
         end)) /\
  started_ids cmds = ids /\ NoDup (started_ids cmds) /\
  (forall s,
      sys_steps (mkSys cmds [] []) s -> pending s = [] ->
      running s = [] /\ Permutation (finished s) ids) /\
  (exists s, sys_steps (mkSys cmds [] []) s /\ pending s = []).
Proof.
  intros ids workers cmds.
  assert (Hcmds : cmds = map Start workers ++ map Join workers)
    by apply run_all_gpus_cmds.
  assert (Hstarted : started_ids cmds = ids).
  { rewrite Hcmds, started_ids_app.
    rewrite (proj1 (started_ids_Start workers)).
    rewrite (proj2 (joined_ids_Join workers)), app_nil_r.
    apply worker_idents. }
  assert (Hjoined : joined_ids cmds = ids).
  { rewrite Hcmds, joined_ids_app.
    rewrite (proj2 (started_ids_Start workers)).
    rewrite (proj1 (joined_ids_Join workers)). simpl.
    apply worker_idents. }
  assert (Hnd : NoDup (started_ids cmds))
    by (rewrite Hstarted; apply seq_NoDup).
  split; [exact Hcmds |].
  split.
  { unfold workers, range. rewrite !map_map. reflexivity. }
  split; [reflexivity |].
  split; [exact Hstarted |]. split; [exact Hnd |].
  split.
  - intros s Hsteps Hpend.
    assert (Hinv : sys_inv cmds s).
    { eapply sys_steps_inv; [exact Hnd | | exact Hsteps].
      exists []. simpl. repeat split; try constructor; simpl; tauto. }
    destruct Hinv as (done & Hd & HR & HF & HJ & HndR & HndF & Hdisj).
    rewrite Hpend, app_nil_r in Hd. subst done.
    rewrite Hstarted in HR, HF. rewrite Hjoined in HJ.
    split.
    + destruct (running s) as [| i R] eqn:HRs; [reflexivity |].
      exfalso. apply (Hdisj i); [now left |].
      apply HJ. apply HR. now left.
    + apply NoDup_Permutation; [exact HndF | apply seq_NoDup |].
      intros i. split; auto.
  - exists (mkSys [] [] (rev (rev ids ++ []) ++ [])).
    split; [| reflexivity].
    rewrite Hcmds.
    eapply sys_steps_trans; [apply sys_start_all |].
    replace (map ident workers) with ids by (symmetry; apply worker_idents).
    eapply sys_steps_trans.
    { apply sys_finish_all. rewrite app_nil_r.
      apply NoDup_rev. apply seq_NoDup. }
    apply sys_join_all. intros w Hw.
    rewrite !app_nil_r, rev_involutive.
    unfold workers in Hw. apply in_map_iff in Hw.
    destruct Hw as (i & <- & Hi). exact Hi.
Qed.

(** * Further properties of the code *)

(** ** [_bytes_to_elements] *)

(** X1. [_bytes_to_elements] never answers less than one element. When the
    request holds at least one element, the elements fill it up to less
    than one element's size (exactly, when the size divides the request);
    a smaller request, zero and negative ones included, still gets one
    element, which is then more than was asked for. *)
Theorem bytes_to_elements_bounds (num_bytes : Z) (dt : torch_dtype) :
  let n := _bytes_to_elements num_bytes dt in
  1 <= n /\
  (itemsize dt <= num_bytes ->
   n * itemsize dt <= num_bytes < (n + 1) * itemsize dt) /\
  (itemsize dt <= num_bytes -> num_bytes mod itemsize dt = 0 ->
   n * itemsize dt = num_bytes) /\
  (num_bytes < itemsize dt -> n = 1 /\ num_bytes < n * itemsize dt).
Proof.
  intros n. subst n. unfold _bytes_to_elements.
  pose proof (itemsize_pos dt) as Hpos.
  pose proof (Z.div_mod num_bytes (itemsize dt)) as Hdm.
  pose proof (Z.mod_pos_bound num_bytes (itemsize dt)) as Hmod.
  split; [lia |]. split; [| split].
  - intros Hge.
    assert (1 <= num_bytes / itemsize dt)
      by (apply Z.div_le_lower_bound; lia).
    rewrite Z.max_r by lia. nia.
  - intros Hge Hz.
    assert (1 <= num_bytes / itemsize dt)
      by (apply Z.div_le_lower_bound; lia).
    rewrite Z.max_r by lia. nia.
  - intros Hlt.
    assert (num_bytes / itemsize dt <= 0).
    { destruct (Z.le_gt_cases 0 num_bytes).
      - rewrite Z.div_small; lia.
      - assert (num_bytes / itemsize dt < 0)
          by (apply Z.div_lt_upper_bound; lia). lia. }
    rewrite Z.max_l by lia. lia.
Qed.

(** ** [FragmentConfig.block_size_bytes] *)

Lemma non_increasing_scale (k : Z) (l : list Z) :
  0 < k -> non_increasing (map (fun s => s * k) l) = non_increasing l.
Proof.
  intros Hk. induction l as [| a [| b rest] IH]; [reflexivity | reflexivity |].
  change (non_increasing (map (fun s => s * k) (a :: b :: rest)))
    with ((b * k <=? a * k) && non_increasing (map (fun s => s * k) (b :: rest))).
  rewrite IH.
  change (non_increasing (a :: b :: rest))
    with ((b <=? a) && non_increasing (b :: rest)).
  f_equal. destruct (Z.leb_spec b a), (Z.leb_spec (b * k) (a * k));
    try reflexivity; nia.
Qed.

Lemma non_increasing_block_size_bytes (c : FragmentConfig) :
  non_increasing (block_size_bytes c) = non_increasing (block_size_mib c).
Proof.
  unfold block_size_bytes.
  transitivity
    (non_increasing (map (fun s => s * (1024 * 1024)) (block_size_mib c)));
    [| apply non_increasing_scale; lia].
  f_equal. apply map_ext. intros s. lia.
Qed.

(** X2. [block_size_bytes] converts every candidate from MiB to bytes and
    loses nothing: dividing by one MiB gives the configured list back, so the
    candidates keep their number and order; every byte size is a whole
    number of MiB; and the byte sizes are non-increasing exactly when the
    configured sizes are. *)
Theorem block_size_bytes_round_trip (c : FragmentConfig) :
  map (fun b => b / (1024 * 1024)) (block_size_bytes c) = block_size_mib c /\
  length (block_size_bytes c) = length (block_size_mib c) /\
  Forall (fun b => b mod (1024 * 1024) = 0) (block_size_bytes c) /\
  non_increasing (block_size_bytes c) = non_increasing (block_size_mib c).
Proof.
  split; [| split; [| split; [| apply non_increasing_block_size_bytes]]];
    unfold block_size_bytes.
  - rewrite map_map. rewrite <- (map_id (block_size_mib c)) at 2.
    apply map_ext. intros s.
    replace (s * 1024 * 1024) with (s * (1024 * 1024)) by lia.
    apply Z.div_mul. lia.
  - apply length_map.
  - apply Forall_forall. intros b Hb. apply in_map_iff in Hb.
    destruct Hb as (s & <- & _).
    replace (s * 1024 * 1024) with (s * (1024 * 1024)) by lia.
    apply Z.mod_mul. lia.
Qed.

(** ** [MemoryFragmenter.fragment] *)

(** X3. [fragment] raises none of the errors of the list and random
    primitives it uses: whatever the configuration, the blocks the
    fragmenter already holds, the target and the draws, [random.choice] is
    never called on an empty list, [list.remove] never misses its element,
    [random.randrange] is never called on an empty range and [list.pop]
    never gets an index out of range. *)
Theorem fragment_never_raises (self : MemoryFragmenter) (target_mem : Z)
    (draws : list Draw) :
  (exists st evs,
      fragment_loop (config self) target_mem draws (fragment_start self)
      = Ok (st, evs)) /\
  (exists r, fragment self target_mem draws = Ok r).
Proof.
  destruct (fragment_loop_Ok (config self) target_mem draws (fragment_start self))
    as (st & evs & Hrun).
  split; [eauto |].
  rewrite (fragment_of_loop self target_mem draws st evs Hrun).
  destruct (loop_cond target_mem st); eauto.
Qed.

(** X4. With a target that is not positive (as for [target_mem_ratio = 0])
    or with no candidate size configured, [fragment] returns at once: it
    draws nothing, attempts no allocation, reports zero bytes and returns
    the blocks the fragmenter held before, none for a new fragmenter. *)
Theorem fragment_returns_at_once (self : MemoryFragmenter) (target_mem : Z)
    (draws : list Draw) :
  target_mem <= 0 \/ block_size_mib (config self) = [] ->
  fragment self target_mem draws
  = Ok (Some (mkFragmented
                (mkMemoryFragmenter (device self) (config self) (_tensors self))
                (_tensors self) 0 [])).
Proof.
  intros H.
  assert (Hc : loop_cond target_mem (fragment_start self) = false).
  { apply loop_cond_false. simpl. destruct H as [H | H]; [left; lia |].
    right. unfold block_size_bytes. now rewrite H. }
  rewrite (fragment_of_loop self target_mem draws (fragment_start self) []
             (fragment_loop_stop _ _ _ _ Hc)).
  rewrite Hc. reflexivity.
Qed.

Lemma fragment_returns_at_once_witness :
  (0 <= 0 \/ block_size_mib default_config = []) /\
  fragment (MemoryFragmenter_init 0 default_config) 0 sample_draws
  = Ok (Some (mkFragmented (MemoryFragmenter_init 0 default_config) [] 0 [])).
Proof.
  split; [left; lia |].
  apply (fragment_returns_at_once (MemoryFragmenter_init 0 default_config) 0
           sample_draws).
  left. lia.
Defined.

(** What the halving keeps: halves of former candidates, none below the
    minimum. *)
Lemma halve_sizes_In (min_block : Z) (sizes : list Z) (x : Z) :
  In x (halve_sizes min_block sizes) <->
  exists s, In s sizes /\ x = s / 2 /\ min_block <= x.
Proof.
  rewrite halve_sizes_spec, filter_In, in_map_iff, Z.leb_le.
  split.
  - intros [(s & <- & Hs) Hge]. eauto.
  - intros (s & Hs & -> & Hge). eauto.
Qed.

Lemma body_step_configured_blocks (c : FragmentConfig) (d : Draw)
    (st st' : FragState) (ev : list Event) :
  configured_blocks c st -> body_step c d st st' ev -> configured_blocks c st'.
Proof.
  unfold configured_blocks. intros Hp Hb.
  assert (Hnew : forall b, min_block_bytes c <= b ->
                   Forall (fun t => exists b, min_block_bytes c <= b /\
                                              t = new_tensor c b)
                          (live st ++ [new_tensor c b])).
  { intros b Hge. apply Forall_app. split; [assumption |].
    constructor; [eauto | constructor]. }
  destruct Hb as [b sizes _ _ _ | b _ _ _ | b _ Hge _ _
                 | b idx victim rest _ Hge _ _ _ Hpop]; simpl; auto.
  eapply list_pop_Forall in Hpop; [| apply Hnew; assumption]. tauto.
Qed.

Lemma fragment_loop_configured_blocks (c : FragmentConfig) (target_mem : Z)
    (draws : list Draw) (st st' : FragState) (evs : list Event) :
  configured_blocks c st ->
  fragment_loop c target_mem draws st = Ok (st', evs) ->
  configured_blocks c st'.
Proof.
  intros Hc H.
  eapply (fragment_loop_invariant c target_mem (configured_blocks c)); eauto.
  intros; eapply body_step_configured_blocks; eauto.
Qed.


Lemma live_bytes_lower_bound (k : Z) (ts : list Tensor) :
  Forall (fun t => k <= tensor_bytes t) ts ->
  k * Z.of_nat (length ts) <= live_bytes ts.
Proof.
  induction 1 as [| t ts Ht _ IH]; simpl length; simpl live_bytes; [lia |].
  rewrite Nat2Z.inj_succ. lia.
Qed.

(** X6. For a new fragmenter the [allocated] counter is never negative: it
    is at least one element size per live block, and it is zero exactly
    when no block is live. *)
Theorem allocated_counts_at_least_the_blocks (device : Z) (c : FragmentConfig)
    (target_mem : Z) (draws : list Draw) :
  exists st evs,
    fragment_loop c target_mem draws
      (fragment_start (MemoryFragmenter_init device c)) = Ok (st, evs) /\
    0 <= itemsize (dtype c) * Z.of_nat (length (live st)) <= allocated st /\
    (allocated st = 0 <-> live st = []).
Proof.
  destruct (fragment_loop_Ok c target_mem draws
              (fragment_start (MemoryFragmenter_init device c)))
    as (st & evs & Hrun).
  exists st, evs. split; [exact Hrun |].
  assert (Hcons : consistent st).
  { eapply fragment_loop_consistent; [| exact Hrun]. reflexivity. }
  assert (Hc : configured_blocks c st).
  { eapply fragment_loop_configured_blocks; [| exact Hrun]. constructor. }
  assert (Hk : Forall (fun t => itemsize (dtype c) <= tensor_bytes t) (live st)).
  { eapply Forall_impl; [| exact Hc]. intros t (b & _ & ->).
    unfold tensor_bytes, new_tensor; simpl.
    pose proof (itemsize_pos (dtype c)).
    pose proof (_bytes_to_elements_pos b (dtype c)). nia. }
  apply live_bytes_lower_bound in Hk.
  pose proof (itemsize_pos (dtype c)) as Hpos.
  unfold consistent in Hcons. rewrite Hcons.
  split; [split; [nia | exact Hk] |].
  split.
  - intros H0. destruct (live st) as [| t ts]; [reflexivity |].
    simpl length in Hk. rewrite Nat2Z.inj_succ in Hk. nia.
  - intros ->. reflexivity.
Qed.

(** X7. [fragment] restarts its counter at zero but keeps the blocks the
    fragmenter already holds: on any fragmenter, the bytes of the returned
    blocks are the reported bytes plus the bytes held before the call, and
    the returned blocks are those held before plus the allocations minus
    the frees of the call. *)
Theorem fragment_on_a_used_fragmenter (self : MemoryFragmenter) (target_mem : Z)
    (draws : list Draw) :
  match fragment self target_mem draws with
  | Ok (Some r) =>
      live_bytes (blocks r) = reported r + live_bytes (_tensors self) /\
      Z.of_nat (length (blocks r))
      = Z.of_nat (length (_tensors self))
        + Z.of_nat (count_allocs (history r)) - Z.of_nat (count_frees (history r))
  | Ok None => True
  | Raise _ => False
  end.
Proof.
  destruct (fragment_loop_Ok (config self) target_mem draws (fragment_start self))
    as (st & evs & Hrun).
  rewrite (fragment_of_loop self target_mem draws st evs Hrun).
  destruct (loop_cond target_mem st); [exact I |].
  pose proof (fragment_loop_bytes_offset _ _ _ _ _ _ Hrun) as Hoff.
  pose proof (fragment_loop_block_count _ _ _ _ _ _ Hrun) as Hcnt.
  simpl in *. split; lia.
Qed.

(** ** How far [fragment] can overshoot its target *)

Lemma fold_max_ge_base (base : Z) (l : list Z) :
  base <= fold_right Z.max base l.
Proof. induction l as [| a l IH]; simpl; lia. Qed.

Lemma fold_max_ge_In (base : Z) (l : list Z) (x : Z) :
  In x l -> x <= fold_right Z.max base l.
Proof.
  induction l as [| a l IH]; simpl; [tauto |].
  intros [-> | Hin]; [lia | apply IH in Hin; lia].
Qed.

Lemma new_tensor_bytes_le (c : FragmentConfig) (b : Z) :
  tensor_bytes (new_tensor c b) <= Z.max (itemsize (dtype c)) b.
Proof.
  unfold tensor_bytes, new_tensor, _bytes_to_elements; simpl.
  pose proof (itemsize_pos (dtype c)) as Hpos.
  pose proof (Z.mul_div_le b (itemsize (dtype c))).
  destruct (Z.max_spec 1 (b / itemsize (dtype c))) as [[_ ->] | [_ ->]]; lia.
Qed.

Lemma body_step_candidates_within (c : FragmentConfig) (cap : Z) (d : Draw)
    (st st' : FragState) (ev : list Event) :
  0 <= cap ->
  candidates_within cap st -> body_step c d st st' ev ->
  candidates_within cap st'.
Proof.
  unfold candidates_within. intros Hcap Hw Hb.
  destruct Hb as [b sizes _ _ Hrm | b _ _ _ | b _ _ _ _
                 | b idx victim rest _ _ _ _ _ _]; simpl; auto.
  - rewrite Forall_forall in *. intros x Hx. apply Hw.
    eapply list_remove_incl; eauto.
  - rewrite Forall_forall in *. intros x Hx.
    apply halve_sizes_In in Hx. destruct Hx as (s & Hs & -> & _).
    apply Hw in Hs.
    pose proof (Z.div_mod s 2). pose proof (Z.mod_pos_bound s 2). lia.
Qed.

Lemma body_step_overshoot (c : FragmentConfig) (target_mem cap : Z) (d : Draw)
    (st st' : FragState) (ev : list Event) :
  itemsize (dtype c) <= cap ->
  candidates_within cap st -> positive_blocks st ->
  loop_cond target_mem st = true ->
  body_step c d st st' ev ->
  allocated st' < target_mem + cap.
Proof.
  intros Hitem Hw Hp Hcond Hb.
  apply loop_cond_true in Hcond. destruct Hcond as [Hlt _].
  pose proof (itemsize_pos (dtype c)) as Hpos.
  assert (Hreq : forall b, In b (block_sizes st) ->
                           tensor_bytes (new_tensor c b) <= cap).
  { intros b Hin. pose proof (new_tensor_bytes_le c b).
    unfold candidates_within in Hw. rewrite Forall_forall in Hw.
    apply Hw in Hin. lia. }
  destruct Hb as [b sizes _ _ _ | b _ _ _ | b Hch _ _ _
                 | b idx victim rest Hch _ _ _ _ Hpop]; simpl; try lia.
  - apply random_choice_In in Hch. apply Hreq in Hch. lia.
  - apply random_choice_In in Hch. apply Hreq in Hch.
    assert (Hv : 1 <= tensor_bytes victim).
    { eapply (list_pop_Forall (fun t => 1 <= tensor_bytes t)) in Hpop;
        [tauto |].
      apply Forall_app. split; [exact Hp |].
      constructor; [apply new_tensor_bytes_pos | constructor]. }
    lia.
Qed.

Lemma fragment_loop_overshoot (c : FragmentConfig) (target_mem cap : Z)
    (draws : list Draw) :
  itemsize (dtype c) <= cap ->
  forall (st st' : FragState) (evs : list Event),
    candidates_within cap st -> positive_blocks st ->
    allocated st < Z.max 0 target_mem + cap ->
    fragment_loop c target_mem draws st = Ok (st', evs) ->
    allocated st' < Z.max 0 target_mem + cap.
Proof.
  intros Hitem. pose proof (itemsize_pos (dtype c)) as Hpos.
  induction draws as [| d rest IH]; intros st st' evs Hw Hp Hlt H.
  - simpl in H. now injection H as <- <-.
  - apply fragment_loop_cons_inv in H.
    destruct H as [(_ & -> & _) | (Hcond & st1 & ev & evs' & _ & Hb & Hl & _)];
      [assumption |].
    eapply IH; [| | | exact Hl].
    + eapply body_step_candidates_within; eauto. lia.
    + eapply body_step_positive_blocks; eauto.
    + pose proof (body_step_overshoot c target_mem cap d st st1 ev
                    Hitem Hw Hp Hcond Hb). lia.
Qed.

(** X8. A new fragmenter never overshoots its target by a whole largest
    request: after any number of iterations, and at its return, [allocated]
    is below the target (or zero, if the target is negative) plus the bytes
    of the largest candidate (or of one element, if that is more). *)
Theorem allocated_overshoot_is_bounded (device : Z) (c : FragmentConfig)
    (target_mem : Z) (draws : list Draw) :
  (exists st evs,
      fragment_loop c target_mem draws
        (fragment_start (MemoryFragmenter_init device c)) = Ok (st, evs) /\
      allocated st < Z.max 0 target_mem + largest_request c) /\
  match fragment (MemoryFragmenter_init device c) target_mem draws with
  | Ok (Some r) => reported r < Z.max 0 target_mem + largest_request c
  | Ok None => True
  | Raise _ => False
  end.
Proof.
  set (self := MemoryFragmenter_init device c).
  destruct (fragment_loop_Ok c target_mem draws (fragment_start self))
    as (st & evs & Hrun).
  assert (Hbase : itemsize (dtype c) <= largest_request c)
    by apply fold_max_ge_base.
  pose proof (itemsize_pos (dtype c)) as Hpos.
  assert (Hlt : allocated st < Z.max 0 target_mem + largest_request c).
  { eapply (fragment_loop_overshoot c target_mem (largest_request c) draws Hbase
              (fragment_start self)); [| | | exact Hrun].
    - unfold candidates_within. apply Forall_forall. intros b Hb.
      now apply fold_max_ge_In.
    - constructor.
    - simpl. lia. }
  split; [eauto |].
  rewrite (fragment_of_loop self target_mem draws st evs Hrun).
  destruct (loop_cond target_mem st); simpl; auto.
Qed.

(** ** How often the fallback can trigger *)

Lemma count_fails_app (e1 e2 : list Event) :
  count_fails (e1 ++ e2) = (count_fails e1 + count_fails e2)%nat.
Proof. unfold count_fails. now rewrite filter_app, length_app. Qed.

Lemma halvings_le_budget (min_block : Z) (sizes : list Z) (s : Z) :
  In s sizes -> (halvings min_block s <= fail_budget min_block sizes)%nat.
Proof.
  intros Hin. unfold fail_budget.
  assert (H : Forall (fun k => (k <= list_max (map (halvings min_block) sizes))%nat)
                     (map (halvings min_block) sizes))
    by (apply list_max_le; lia).
  rewrite Forall_forall in H. apply H. now apply in_map.
Qed.

Lemma fail_budget_incl (min_block : Z) (l l' : list Z) :
  (forall x, In x l' -> In x l) ->
  (fail_budget min_block l' <= fail_budget min_block l)%nat.
Proof.
  intros Hincl. unfold fail_budget at 1. apply list_max_le.
  apply Forall_forall. intros k Hk. apply in_map_iff in Hk.
  destruct Hk as (x & <- & Hx). apply halvings_le_budget. auto.
Qed.

(** A candidate that survives a halving has one halving less to go. *)
Lemma halvings_half (min_block s : Z) :
  0 < min_block -> min_block <= s / 2 ->
  halvings min_block s = S (halvings min_block (s / 2)).
Proof.
  intros Hmin Hge. unfold halvings.
  assert (Hs : 2 * min_block <= s)
    by (pose proof (Z.div_mod s 2); pose proof (Z.mod_pos_bound s 2); lia).
  destruct (Z.ltb_spec s min_block); [lia |].
  destruct (Z.ltb_spec (s / 2) min_block); [lia |].
  f_equal.
  assert (Hq : 2 <= s / min_block) by (apply Z.div_le_lower_bound; lia).
  assert (Hswap : s / 2 / min_block = s / min_block / 2).
  { rewrite !Z.div_div by lia. f_equal. lia. }
  rewrite Hswap.
  assert (Hlog : Z.log2 (s / min_block / 2) = Z.log2 (s / min_block) - 1).
  { replace (s / min_block / 2) with (Z.shiftr (s / min_block) 1)
      by (rewrite Z.shiftr_div_pow2 by lia; reflexivity).
    rewrite Z.log2_shiftr by lia.
    assert (1 <= Z.log2 (s / min_block))
      by (apply Z.log2_le_pow2; simpl; lia).
    lia. }
  rewrite Hlog.
  assert (1 <= Z.log2 (s / min_block)) by (apply Z.log2_le_pow2; simpl; lia).
  lia.
Qed.

Lemma fail_budget_halve (min_block : Z) (sizes : list Z) (b : Z) :
  0 < min_block -> In b sizes -> min_block <= b ->
  (S (fail_budget min_block (halve_sizes min_block sizes))
   <= fail_budget min_block sizes)%nat.
Proof.
  intros Hmin Hin Hge.
  assert (Hone : (1 <= fail_budget min_block sizes)%nat).
  { pose proof (halvings_le_budget min_block sizes b Hin) as Hb.
    unfold halvings in Hb. destruct (Z.ltb_spec b min_block); lia. }
  assert (H : (fail_budget min_block (halve_sizes min_block sizes)
               <= fail_budget min_block sizes - 1)%nat).
  { unfold fail_budget at 1. apply list_max_le.
    apply Forall_forall. intros k Hk. apply in_map_iff in Hk.
    destruct Hk as (x & <- & Hx). apply halve_sizes_In in Hx.
    destruct Hx as (s & Hs & -> & Hkeep).
    pose proof (halvings_le_budget min_block sizes s Hs) as Hle.
    rewrite (halvings_half min_block s Hmin Hkeep) in Hle. lia. }
  lia.
Qed.

Lemma body_step_fail_budget (c : FragmentConfig) (d : Draw)
    (st st' : FragState) (ev : list Event) :
  0 < min_block_bytes c ->
  body_step c d st st' ev ->
  (count_fails ev + fail_budget (min_block_bytes c) (block_sizes st')
   <= fail_budget (min_block_bytes c) (block_sizes st))%nat.
Proof.
  intros Hmin Hb.
  destruct Hb as [b sizes _ _ Hrm | b Hch Hge _ | b _ _ _ _
                 | b idx victim rest _ _ _ _ _ _];
    unfold count_fails; simpl; try lia.
  - apply fail_budget_incl. intros x Hx. eapply list_remove_incl; eauto.
  - apply random_choice_In in Hch.
    now apply (fail_budget_halve (min_block_bytes c) (block_sizes st) b).
Qed.

Lemma fragment_loop_fail_budget (c : FragmentConfig) (target_mem : Z)
    (draws : list Draw) :
  0 < min_block_bytes c ->
  forall (st st' : FragState) (evs : list Event),
    fragment_loop c target_mem draws st = Ok (st', evs) ->
    (count_fails evs + fail_budget (min_block_bytes c) (block_sizes st')
     <= fail_budget (min_block_bytes c) (block_sizes st))%nat.
Proof.
  intros Hmin. induction draws as [| d rest IH]; intros st st' evs H.
  - simpl in H. injection H as <- <-. simpl. lia.
  - apply fragment_loop_cons_inv in H.
    destruct H as [(_ & -> & ->) | (_ & st1 & ev & evs' & _ & Hb & Hl & ->)].
    + simpl. lia.
    + apply (body_step_fail_budget c d st st1 ev Hmin) in Hb.
      apply IH in Hl. rewrite count_fails_app. lia.
Qed.

(** X9. When [min_block_mib] is positive, the allocations that fail during a
    call of [fragment] are bounded by the configuration alone, whatever the
    draws: there are at most  1 + floor(log2(largest / minimum))  of them,
    for the largest candidate that is not below the minimum, and none if
    every candidate is below it. With the default sizes and minimum that is
    ten, and ten refusals in a row do occur. *)
Theorem failed_allocations_are_bounded (self : MemoryFragmenter)
    (target_mem : Z) (draws : list Draw) :
  0 < min_block_mib (config self) ->
  (exists st evs,
      fragment_loop (config self) target_mem draws (fragment_start self)
      = Ok (st, evs) /\
      (count_fails evs
       <= fail_budget (min_block_bytes (config self))
                      (block_size_bytes (config self)))%nat) /\
  fail_budget (min_block_bytes default_config) (block_size_bytes default_config)
  = 10%nat /\
  (exists st evs,
      fragment_loop default_config sample_target_mem
        (repeat (mkDraw 0 false (1 # 2) 0) 10)
        (fragment_start (MemoryFragmenter_init 0 default_config)) = Ok (st, evs) /\
      count_fails evs = 10%nat).
Proof.
  intros Hmin.
  assert (Hmb : 0 < min_block_bytes (config self))
    by (unfold min_block_bytes; lia).
  split; [| split; [reflexivity | eexists; eexists; split; vm_compute; reflexivity]].
  destruct (fragment_loop_Ok (config self) target_mem draws (fragment_start self))
    as (st & evs & Hrun).
  exists st, evs. split; [exact Hrun |].
  pose proof (fragment_loop_fail_budget _ target_mem draws Hmb _ _ _ Hrun) as H.
  simpl in H. lia.
Qed.

Lemma failed_allocations_are_bounded_witness :
  0 < min_block_mib default_config /\
  (exists st evs,
      fragment_loop default_config sample_target_mem sample_draws
        (fragment_start (MemoryFragmenter_init 0 default_config)) = Ok (st, evs) /\
      (count_fails evs
       <= fail_budget (min_block_bytes default_config)
                      (block_size_bytes default_config))%nat) /\
  fail_budget (min_block_bytes default_config) (block_size_bytes default_config)
  = 10%nat /\
  (exists st evs,
      fragment_loop default_config sample_target_mem
        (repeat (mkDraw 0 false (1 # 2) 0) 10)
        (fragment_start (MemoryFragmenter_init 0 default_config)) = Ok (st, evs) /\
      count_fails evs = 10%nat).
Proof.
  split; [reflexivity |].
  apply (failed_allocations_are_bounded (MemoryFragmenter_init 0 default_config)
           sample_target_mem sample_draws).
  reflexivity.
Defined.

(** ** What becomes of the candidate sizes *)

Lemma halve_sizes_length (min_block : Z) (sizes : list Z) :
  (length (halve_sizes min_block sizes) <= length sizes)%nat.
Proof.
  induction sizes as [| s rest IH]; simpl; [lia |].
  destruct (min_block <=? s / 2); simpl; lia.
Qed.

Lemma body_step_candidates_origin (c : FragmentConfig) (d : Draw)
    (st st' : FragState) (ev : list Event) :
  body_step c d st st' ev ->
  Forall (fun b => exists s, In s (block_sizes st) /\
                             b = s / 2 ^ Z.of_nat (count_fails ev))
         (block_sizes st') /\
  (length (block_sizes st') <= length (block_sizes st))%nat.
Proof.
  intros Hb.
  assert (Hsame : forall l : list Z,
             Forall (fun b => exists s, In s l /\ b = s / 2 ^ Z.of_nat 0) l).
  { intros l. apply Forall_forall. intros b Hin. exists b.
    split; [assumption |]. simpl. now rewrite Z.div_1_r. }
  destruct Hb as [b sizes _ _ Hrm | b _ _ _ | b _ _ _ _
                 | b idx victim rest _ _ _ _ _ _];
    unfold count_fails; simpl length; simpl block_sizes.
  - split; [| apply list_remove_length in Hrm; lia].
    apply Forall_forall. intros x Hx. exists x.
    split; [eapply list_remove_incl; eauto |].
    simpl. now rewrite Z.div_1_r.
  - split; [| apply halve_sizes_length].
    apply Forall_forall. intros x Hx. apply halve_sizes_In in Hx.
    destruct Hx as (s & Hs & -> & _). exists s. auto.
  - split; [apply Hsame | lia].
  - split; [apply Hsame | lia].
Qed.

Lemma fragment_loop_candidates_origin (c : FragmentConfig) (target_mem : Z)
    (draws : list Draw) :
  forall (st st' : FragState) (evs : list Event),
    fragment_loop c target_mem draws st = Ok (st', evs) ->
    Forall (fun b => exists s, In s (block_sizes st) /\
                               b = s / 2 ^ Z.of_nat (count_fails evs))
           (block_sizes st') /\
    (length (block_sizes st') <= length (block_sizes st))%nat.
Proof.
  induction draws as [| d rest IH]; intros st st' evs H.
  - simpl in H. injection H as <- <-. split; [| lia].
    apply Forall_forall. intros b Hin. exists b.
    split; [assumption |]. simpl. now rewrite Z.div_1_r.
  - apply fragment_loop_cons_inv in H.
    destruct H as [(_ & -> & ->) | (_ & st1 & ev & evs' & _ & Hb & Hl & ->)].
    + split; [| lia].
      apply Forall_forall. intros b Hin. exists b.
      split; [assumption |]. simpl. now rewrite Z.div_1_r.
    + apply body_step_candidates_origin in Hb. destruct Hb as [Hb1 Hb2].
      apply IH in Hl. destruct Hl as [Hl1 Hl2].
      split; [| lia].
      rewrite Forall_forall in *. intros b Hin.
      destruct (Hl1 b Hin) as (s1 & Hs1 & ->).
      destruct (Hb1 s1 Hs1) as (s & Hs & ->).
      exists s. split; [assumption |].
      rewrite count_fails_app, Nat2Z.inj_add, Z.pow_add_r by lia.
      rewrite Z.div_div; [reflexivity | | ]; lia.
Qed.

(** X10. The halving is global: after a run with [k] failed allocations,
    every candidate still in the list is one of the configured sizes divided
    by 2 to the power [k] (floor division), whichever sizes the failed
    attempts were for; and the list of candidates never grows. *)
Theorem candidates_are_configured_sizes_halved (self : MemoryFragmenter)
    (target_mem : Z) (draws : list Draw) :
  exists st evs,
    fragment_loop (config self) target_mem draws (fragment_start self)
    = Ok (st, evs) /\
    Forall (fun b => exists mib,
                In mib (block_size_mib (config self)) /\
                b = (mib * 1024 * 1024) / 2 ^ Z.of_nat (count_fails evs))
           (block_sizes st) /\
    (length (block_sizes st) <= length (block_size_mib (config self)))%nat.
Proof.
  destruct (fragment_loop_Ok (config self) target_mem draws (fragment_start self))
    as (st & evs & Hrun).
  exists st, evs. split; [exact Hrun |].
  apply fragment_loop_candidates_origin in Hrun. destruct Hrun as [H1 H2].
  simpl in H1, H2. unfold block_size_bytes in *. rewrite length_map in H2.
  split; [| exact H2].
  eapply Forall_impl; [| exact H1].
  intros b (s & Hs & ->). apply in_map_iff in Hs.
  destruct Hs as (mib & <- & Hmib). eauto.
Qed.

Lemma non_increasing_descending (l : list Z) :
  non_increasing l = true <-> descending l.
Proof.
  induction l as [| a rest IH]; [simpl; tauto |].
  destruct rest as [| b rest'].
  - simpl. split; [intros _; split; [intros x [] | exact I] | reflexivity].
  - change (non_increasing (a :: b :: rest'))
      with ((b <=? a) && non_increasing (b :: rest')).
    rewrite andb_true_iff, Z.leb_le, IH.
    cbn [descending]. split.
    + intros (Hba & Hb & Hd). split; [| split; assumption].
      intros x [<- | Hx]; [assumption |]. apply Hb in Hx. lia.
    + intros (Ha & Hb & Hd). split; [apply Ha; now left | split; assumption].
Qed.

Lemma descending_halve (min_block : Z) (l : list Z) :
  descending l -> descending (halve_sizes min_block l).
Proof.
  induction l as [| a rest IH]; simpl; [tauto |].
  intros [Ha Hd]. destruct (min_block <=? a / 2); [| auto].
  simpl. split; [| auto].
  intros x Hx. apply halve_sizes_In in Hx. destruct Hx as (s & Hs & -> & _).
  apply Z.div_le_mono; [lia | auto].
Qed.

Lemma descending_remove (x : Z) (l l' : list Z) :
  list_remove x l = Ok l' -> descending l -> descending l'.
Proof.
  revert l'. induction l as [| a rest IH]; simpl; intros l' H; [discriminate |].
  intros [Ha Hd]. destruct (a =? x).
  - injection H as <-. exact Hd.
  - bind_inv H. injection H as <-. simpl. split; [| eauto].
    intros y Hy. apply Ha. eapply list_remove_incl; eauto.
Qed.

(** X11. If the configured sizes are non-increasing (as the default ones
    are), the working list of candidates stays non-increasing throughout a
    call of [fragment]: neither the removals nor the halving disturb the
    order. *)
Theorem candidates_stay_non_increasing (self : MemoryFragmenter)
    (target_mem : Z) (draws : list Draw) :
  non_increasing (block_size_mib (config self)) = true ->
  exists st evs,
    fragment_loop (config self) target_mem draws (fragment_start self)
    = Ok (st, evs) /\
    non_increasing (block_sizes st) = true.
Proof.
  intros Hsorted.
  destruct (fragment_loop_Ok (config self) target_mem draws (fragment_start self))
    as (st & evs & Hrun).
  exists st, evs. split; [exact Hrun |].
  apply non_increasing_descending.
  eapply (fragment_loop_invariant (config self) target_mem
            (fun s => descending (block_sizes s))); [| | exact Hrun].
  - intros d s s' ev Hd _ Hb.
    destruct Hb as [b sizes _ _ Hrm | b _ _ _ | b _ _ _ _
                   | b idx victim rest _ _ _ _ _ _]; simpl; auto.
    + eapply descending_remove; eauto.
    + now apply descending_halve.
  - simpl. apply non_increasing_descending.
    rewrite non_increasing_block_size_bytes. exact Hsorted.
Qed.

Lemma candidates_stay_non_increasing_witness :
  non_increasing (block_size_mib default_config) = true /\
  exists st evs,
    fragment_loop default_config sample_target_mem sample_draws
      (fragment_start (MemoryFragmenter_init 0 default_config)) = Ok (st, evs) /\
    non_increasing (block_sizes st) = true.
Proof.
  split; [reflexivity |].
  apply (candidates_stay_non_increasing (MemoryFragmenter_init 0 default_config)
           sample_target_mem sample_draws).
  reflexivity.
Defined.

(** ** Where the compute loop stops *)

Section ComputeLoopSyncs.

Variable elapsed_at : Z -> Q.
Variable target_sec : Q.

(** Iterations that are no multiple of 8 only count. *)
Lemma compute_loop_skip (j : nat) :
  forall (iteration : Z) (fuel : nat) (checked : list Z),
    (forall i, iteration < i <= iteration + Z.of_nat j -> i mod 8 <> 0) ->
    compute_loop (j + fuel) elapsed_at target_sec iteration checked
    = compute_loop fuel elapsed_at target_sec (iteration + Z.of_nat j) checked.
Proof.
  induction j as [| j IH]; intros iteration fuel checked Hno.
  - simpl. now rewrite Z.add_0_r.
  - cbn [Nat.add compute_loop].
    destruct (Z.eqb_spec ((iteration + 1) mod 8) 0) as [Hz | _].
    + exfalso. apply (Hno (iteration + 1)); [lia | exact Hz].
    + rewrite IH by (intros i Hi; apply Hno; lia).
      f_equal. lia.
Qed.

(** From one synchronisation to the next. *)
Lemma compute_loop_next_sync (iteration : Z) (fuel : nat) (checked : list Z) :
  iteration mod 8 = 0 ->
  compute_loop (8 + fuel) elapsed_at target_sec iteration checked
  = if Qle_bool target_sec (elapsed_at (iteration + 8))
    then Some (iteration + 8, checked ++ [iteration + 8])
    else compute_loop fuel elapsed_at target_sec (iteration + 8)
           (checked ++ [iteration + 8]).
Proof.
  intros Hm.
  change (8 + fuel)%nat with (7 + S fuel)%nat.
  rewrite compute_loop_skip.
  - cbn [compute_loop].
    replace (iteration + Z.of_nat 7 + 1) with (iteration + 8) by lia.
    assert (Hm8 : (iteration + 8) mod 8 = 0).
    { replace (iteration + 8) with (iteration + 1 * 8) by lia.
      now rewrite Z.mod_add by lia. }
    rewrite Hm8. reflexivity.
  - intros i Hi Hz.
    pose proof (Z.div_mod iteration 8). pose proof (Z.div_mod i 8). lia.
Qed.

Lemma compute_loop_runs_to_sync (n : nat) :
  forall (j0 : Z) (fuel : nat) (checked : list Z),
    (forall j, j0 < j <= j0 + Z.of_nat n ->
               Qle_bool target_sec (elapsed_at (8 * j)) = false) ->
    Qle_bool target_sec (elapsed_at (8 * (j0 + Z.of_nat n + 1))) = true ->
    (8 * S n <= fuel)%nat ->
    compute_loop fuel elapsed_at target_sec (8 * j0) checked
    = Some (8 * (j0 + Z.of_nat n + 1),
            checked ++ map (fun i => 8 * (j0 + Z.of_nat i)) (seq 1 (S n))).
Proof.
  induction n as [| n IH]; intros j0 fuel checked Hnot Hexp Hfuel.
  - replace fuel with (8 + (fuel - 8))%nat by lia.
    rewrite compute_loop_next_sync
      by (rewrite Z.mul_comm; apply Z.mod_mul; lia).
    replace (8 * j0 + 8) with (8 * (j0 + Z.of_nat 0 + 1)) by lia.
    rewrite Hexp. cbn [seq map]. repeat f_equal; lia.
  - replace fuel with (8 + (fuel - 8))%nat by lia.
    rewrite compute_loop_next_sync
      by (rewrite Z.mul_comm; apply Z.mod_mul; lia).
    replace (8 * j0 + 8) with (8 * (j0 + 1)) by lia.
    rewrite (Hnot (j0 + 1)) by lia.
    rewrite (IH (j0 + 1)).
    + replace (j0 + 1 + Z.of_nat n + 1) with (j0 + Z.of_nat (S n) + 1) by lia.
      do 2 f_equal.
      rewrite <- app_assoc. f_equal.
      change (seq 1 (S (S n))) with (1%nat :: seq 2 (S n)).
      cbn [map app].
      replace (j0 + Z.of_nat 1) with (j0 + 1) by lia. f_equal.
      rewrite <- (seq_shift (S n) 1), map_map.
      apply map_ext. intros i. f_equal. lia.
    + intros j Hj. apply Hnot. lia.
    + replace (j0 + 1 + Z.of_nat n + 1) with (j0 + Z.of_nat (S n) + 1) by lia.
      exact Hexp.
    + lia.
Qed.

End ComputeLoopSyncs.

(** X12. The compute loop stops at the first synchronisation at which the
    duration has elapsed, and not before: if the elapsed time is below
    [target_sec] at the synchronisations 8, 16, ..., 8k and has reached it at
    8(k+1), the loop runs exactly 8(k+1) iterations, having read the clock at
    8, 16, ..., 8(k+1) and at no other iteration; observed for fewer
    iterations it is still running. *)
Theorem compute_loop_stops_at_first_elapsed_sync (elapsed_at : Z -> Q)
    (target_sec : Q) (k fuel : nat) :
  (forall j, (1 <= j <= k)%nat ->
             Qle_bool target_sec (elapsed_at (8 * Z.of_nat j)) = false) ->
  Qle_bool target_sec (elapsed_at (8 * Z.of_nat (S k))) = true ->
  ((8 * S k <= fuel)%nat ->
   compute_loop fuel elapsed_at target_sec 0 []
   = Some (8 * Z.of_nat (S k), map (fun i => 8 * Z.of_nat i) (seq 1 (S k)))) /\
  ((fuel < 8 * S k)%nat ->
   compute_loop fuel elapsed_at target_sec 0 [] = None).
Proof.
  intros Hnot Hexp. split.
  - intros Hfuel.
    pose proof (compute_loop_runs_to_sync elapsed_at target_sec k 0 fuel []) as H.
    change (8 * 0) with 0 in H. rewrite H.
    + replace (0 + Z.of_nat k + 1) with (Z.of_nat (S k)) by lia.
      reflexivity.
    + intros j Hj. replace j with (Z.of_nat (Z.to_nat j)) by lia.
      apply Hnot. lia.
    + replace (0 + Z.of_nat k + 1) with (Z.of_nat (S k)) by lia. exact Hexp.
    + exact Hfuel.
  - intros Hfuel.
    destruct (compute_loop fuel elapsed_at target_sec 0 []) as [[n chk] |] eqn:H;
      [| reflexivity].
    apply compute_loop_inv in H.
    destruct H as (Hn & Hmod & Hq & _).
    exfalso.
    pose proof (Z.div_mod n 8) as Hdm.
    assert (Hj : n = 8 * Z.of_nat (Z.to_nat (n / 8))) by lia.
    rewrite Hj in Hq. rewrite Hnot in Hq; [discriminate | lia].
Qed.

Lemma compute_loop_stops_at_first_elapsed_sync_witness :
  let clock := fun i : Z => inject_Z i in
  (forall j, (1 <= j <= 1)%nat ->
             Qle_bool 10 (clock (8 * Z.of_nat j)) = false) /\
  Qle_bool 10 (clock (8 * Z.of_nat 2)) = true /\
  ((8 * 2 <= 20)%nat ->
   compute_loop 20 clock 10 0 [] = Some (16, [8; 16])) /\
  ((20 < 8 * 2)%nat -> compute_loop 20 clock 10 0 [] = None).
Proof.
  intros clock.
  assert (Hnot : forall j, (1 <= j <= 1)%nat ->
                           Qle_bool 10 (clock (8 * Z.of_nat j)) = false).
  { intros j Hj. replace j with 1%nat by lia. reflexivity. }
  split; [exact Hnot |]. split; [reflexivity |].
  apply (compute_loop_stops_at_first_elapsed_sync clock 10 1 20 Hnot eq_refl).
Defined.

(** ** What [main] runs *)

Lemma started_calls_Start (ws : list Thread) :
  flat_map (fun c => match c with Start th => [args th] | Join _ => [] end)
           (map Start ws) = map args ws.
Proof.
  induction ws as [| w ws IH]; simpl; [reflexivity | now rewrite IH].
Qed.

Lemma started_calls_Join (ws : list Thread) :
  flat_map (fun c => match c with Start th => [args th] | Join _ => [] end)
           (map Join ws) = [].
Proof.
  induction ws as [| w ws IH]; simpl; [reflexivity | exact IH].
Qed.

Lemma run_all_gpus_calls (hours : Q) (config : FragmentConfig) (device_count : Z) :
  work_performed (Ok (AllDevices (run_all_gpus hours config device_count)))
  = map (fun device_id => (device_id, hours, config)) (range device_count).
Proof.
  cbn [work_performed]. rewrite run_all_gpus_cmds, flat_map_app.
  rewrite started_calls_Start, started_calls_Join, app_nil_r.
  unfold range. rewrite !map_map. reflexivity.
Qed.

Lemma range_spec (n x : Z) : In x (range n) <-> 0 <= x < n.
Proof.
  unfold range. rewrite in_map_iff. split.
  - intros (i & <- & Hi). apply in_seq in Hi. lia.
  - intros Hx. exists (Z.to_nat x). split; [lia |]. apply in_seq. lia.
Qed.

Lemma range_NoDup (n : Z) : NoDup (range n).
Proof.
  unfold range. generalize (seq_NoDup (Z.to_nat n) 0).
  generalize (seq 0 (Z.to_nat n)). intros l Hnd.
  induction Hnd as [| a l Hni _ IH]; simpl; constructor; [| exact IH].
  rewrite in_map_iff. intros (b & Hb & Hin).
  apply Nat2Z.inj in Hb. subst b. contradiction.
Qed.

(** X13. Whatever the arguments, [main] calls [run_on_gpu] only for device
    ids in [0, device_count), never twice for the same device, and always
    with [--hours] and the configuration built from the arguments: once for
    a valid [--device], and once per device, in the order of the ids, when
    [--device] is omitted (so not at all on a machine without devices). *)
Theorem main_runs_valid_devices_only (args : Namespace) (device_count : Z) :
  let calls := work_performed (main args device_count) in
  Forall (fun call =>
            0 <= call_device call < device_count /\
            call = (call_device call, args_hours args, main_config args))
         calls /\
  NoDup (map call_device calls) /\
  match args_device args with
  | Some device =>
      calls = if (0 <=? device) && (device <? device_count)
              then [(device, args_hours args, main_config args)]
              else []
  | None =>
      map call_device calls = range device_count /\
      (device_count <= 0 -> calls = [])
  end.
Proof.
  intros calls. subst calls. unfold main.
  destruct (args_device args) as [device |].
  - destruct (Z.leb_spec 0 device) as [H0 | H0];
      destruct (Z.ltb_spec device device_count) as [H1 | H1];
      cbn [andb negb work_performed map];
      repeat split; try constructor; simpl; try tauto; try constructor;
      unfold call_device; simpl; lia.
  - rewrite run_all_gpus_calls.
    repeat split.
    + apply Forall_forall. intros call Hc. apply in_map_iff in Hc.
      destruct Hc as (id & <- & Hid). apply range_spec in Hid.
      unfold call_device. simpl. auto.
    + rewrite map_map. unfold call_device. simpl. rewrite map_id.
      apply range_NoDup.
    + rewrite map_map. unfold call_device. simpl. apply map_id.
    + intros Hle. unfold range.
      replace (Z.to_nat device_count) with 0%nat by lia. reflexivity.
Qed.

(** ** [busy_loop_mem_power_fragment] *)


(** ** Which candidates get removed *)

Lemma removed_sizes_app (e1 e2 : list Event) :
  removed_sizes (e1 ++ e2) = removed_sizes e1 ++ removed_sizes e2.
Proof. unfold removed_sizes. apply flat_map_app. Qed.

Lemma body_step_removes_configured (c : FragmentConfig) (sizes : list Z)
    (d : Draw) (st st' : FragState) (ev : list Event) :
  kept_or_from (min_block_bytes c) sizes st ->
  body_step c d st st' ev ->
  kept_or_from (min_block_bytes c) sizes st' /\
  Forall (fun b => In b sizes /\ b < min_block_bytes c) (removed_sizes ev).
Proof.
  unfold kept_or_from. intros Hk Hb.
  destruct Hb as [b rest Hch Hlt Hrm | b _ _ _ | b _ _ _ _
                 | b idx victim rest _ _ _ _ _ _]; simpl; auto.
  - split.
    + rewrite Forall_forall in *. intros x Hx. apply Hk.
      eapply list_remove_incl; eauto.
    + constructor; [| constructor].
      apply random_choice_In in Hch.
      rewrite Forall_forall in Hk. destruct (Hk b Hch); [lia | auto].
  - split; [| constructor].
    apply Forall_forall. intros x Hx. apply halve_sizes_In in Hx.
    destruct Hx as (s & _ & _ & Hge). now left.
Qed.

Lemma fragment_loop_removes_configured (c : FragmentConfig) (target_mem : Z)
    (sizes : list Z) (draws : list Draw) :
  forall (st st' : FragState) (evs : list Event),
    kept_or_from (min_block_bytes c) sizes st ->
    fragment_loop c target_mem draws st = Ok (st', evs) ->
    Forall (fun b => In b sizes /\ b < min_block_bytes c) (removed_sizes evs).
Proof.
  induction draws as [| d rest IH]; intros st st' evs Hk H.
  - simpl in H. injection H as <- <-. constructor.
  - apply fragment_loop_cons_inv in H.
    destruct H as [(_ & -> & ->) | (_ & st1 & ev & evs' & _ & Hb & Hl & ->)];
      [constructor |].
    destruct (body_step_removes_configured c sizes d st st1 ev Hk Hb)
      as [Hk1 Hev].
    rewrite removed_sizes_app. apply Forall_app. split; [exact Hev |].
    eapply IH; eauto.
Qed.

(** X15. The only candidates [fragment] ever removes for being below the
    minimum are configured sizes that are below [min_block_mib] as they
    stand: a size that the halving has produced is never removed that way
    (the halving has dropped it already if it was too small). So when no
    configured size is below the minimum, nothing is removed at all. *)
Theorem only_configured_sizes_are_removed (self : MemoryFragmenter)
    (target_mem : Z) (draws : list Draw) :
  exists st evs,
    fragment_loop (config self) target_mem draws (fragment_start self)
    = Ok (st, evs) /\
    Forall (fun b => exists mib,
                In mib (block_size_mib (config self)) /\
                mib < min_block_mib (config self) /\
                b = mib * 1024 * 1024)
           (removed_sizes evs) /\
    ((forall mib, In mib (block_size_mib (config self)) ->
                  min_block_mib (config self) <= mib) ->
     removed_sizes evs = []).
Proof.
  destruct (fragment_loop_Ok (config self) target_mem draws (fragment_start self))
    as (st & evs & Hrun).
  exists st, evs. split; [exact Hrun |].
  assert (H : Forall (fun b => In b (block_size_bytes (config self)) /\
                               b < min_block_bytes (config self))
                     (removed_sizes evs)).
  { eapply fragment_loop_removes_configured; [| exact Hrun].
    unfold kept_or_from. apply Forall_forall. intros b Hb. now right. }
  assert (H' : Forall (fun b => exists mib,
                         In mib (block_size_mib (config self)) /\
                         mib < min_block_mib (config self) /\
                         b = mib * 1024 * 1024)
                      (removed_sizes evs)).
  { eapply Forall_impl; [| exact H]. intros b [Hin Hlt].
    unfold block_size_bytes in Hin. apply in_map_iff in Hin.
    destruct Hin as (mib & <- & Hmib). exists mib.
    unfold min_block_bytes in Hlt. repeat split; [assumption | lia]. }
  split; [exact H' |].
  intros Hall. destruct (removed_sizes evs) as [| b rest]; [reflexivity |].
  inversion H' as [| ? ? (mib & Hin & Hlt & _) _]; subst.
  apply Hall in Hin. lia.
Qed.
